(** * Image compression tool: a shallow embedding of [main.py]

    The program is a thin wrapper over an image codec (PIL), an archive
    writer (zipfile) and a web widget framework (Streamlit).  The codec is
    an opaque capability: it is a record of operations here, and every
    statement about the program holds for every codec.  The archive is the
    ordered list of its entries; what the archive library stores for a
    write is written out (the name is terminated at a null character), and
    which writes and closes it refuses is again a record of operations, so
    that every statement holds however the library decides.  The calls into
    Streamlit are taken to return: a run is the state it leaves and the
    page it renders.  Python integers are [Z], Python floats are
    IEEE 754 binary64 values ([spec_float] with 53 bits of precision),
    strings are [string], byte buffers are lists of bytes, and an exception
    is the [Err] branch of [result].  What the program takes from the
    Python library is written out as the library documents it: the
    conversion of an int to a float, float division and comparison, the
    format [%.1f], [str.split], [str.lower], [str.find], [str.rfind],
    slices and [os.path.splitext]. *)

From Stdlib Require Import ZArith List Bool Ascii String Lia.
From Stdlib Require Import Numbers.DecimalString.
From Stdlib Require Import Floats.SpecFloat.
Import ListNotations.

Open Scope string_scope.
Open Scope Z_scope.

(** ** Exceptions and the error monad *)

Inductive result (E A : Type) : Type :=
| Ok (a : A)
| Err (e : E).
Arguments Ok {E A} a.
Arguments Err {E A} e.

Definition bind {E A B : Type} (m : result E A) (k : A -> result E B)
  : result E B :=
  match m with
  | Ok a => k a
  | Err e => Err e
  end.

Notation "x <- m ;; k" := (bind m (fun x => k))
  (at level 61, m at next level, right associativity).
Notation "' p <- m ;; k" := (bind m (fun x => let 'p := x in k))
  (at level 61, p pattern, m at next level, right associativity).

(** ** Python numbers *)

Module Float.

Definition prec : Z := 53.
Definition emax : Z := 1024.

(** [float(n)] for a Python int: the nearest double, ties to even;
    [OverflowError] when that is not finite. *)
Definition of_int (n : Z) : option spec_float :=
  match binary_normalize prec emax n 0 false with
  | S754_infinity _ => None
  | x => Some x
  end.

(** The literal [1024.0]. *)
Definition c1024 : spec_float := S754_finite false 4503599627370496 (-42).

Definition div (x y : spec_float) : spec_float := SFdiv prec emax x y.
Definition abs (x : spec_float) : spec_float := SFabs x.
Definition ltb (x y : spec_float) : bool := SFltb x y.

End Float.

(** A raised exception: its class and its message. *)
Record exn : Type := Raise { exn_class : string; exn_message : string }.

Definition OverflowError : exn :=
  Raise "OverflowError" "int too large to convert to float".
Definition AttributeError : exn :=
  Raise "AttributeError" "'NoneType' object has no attribute 'lower'".
Definition IndexError : exn :=
  Raise "IndexError" "list index out of range".

(** The decimal digits of an integer [z >= 0]. *)
Definition decimal (z : Z) : string :=
  NilZero.string_of_uint (N.to_uint (Z.to_N z)).

(** The integer nearest to [a / b], ties to even ([0 <= a], [0 < b]). *)
Definition round_half_even (a b : Z) : Z :=
  let q := a / b in
  let r := a mod b in
  match 2 * r ?= b with
  | Lt => q
  | Gt => q + 1
  | Eq => if Z.even q then q else q + 1
  end.

(** The number of tenths printed for the magnitude [m * 2^e]. *)
Definition tenths (m : positive) (e : Z) : Z :=
  if 0 <=? e then 10 * Zpos m * 2 ^ e
  else round_half_even (10 * Zpos m) (2 ^ (- e)).

Definition minus_sign (s : bool) : string := if s then "-" else "".

(** [t] tenths in fixed notation with one fractional digit. *)
Definition fixed1 (t : Z) : string :=
  decimal (t / 10) ++ "." ++ decimal (t mod 10).

(** ["%.1f" % x]: the decimal with one fractional digit nearest to the exact
    value of [x], ties to even, with the sign of [x]. *)
Definition format_1f (x : spec_float) : string :=
  match x with
  | S754_zero s => minus_sign s ++ fixed1 0
  | S754_finite s m e => minus_sign s ++ fixed1 (tenths m e)
  | S754_infinity s => minus_sign s ++ "inf"
  | S754_nan => "nan"
  end.

Fixpoint spaces (n : nat) : string :=
  match n with
  | O => ""
  | S n' => String " " (spaces n')
  end.

(** A minimum field width pads on the left with spaces. *)
Definition pad_left (width : nat) (s : string) : string :=
  spaces (width - String.length s) ++ s.

(** The variable [num] of [sizeof_fmt] holds an int on entry and a float
    after the first division. *)
Inductive pynum : Type :=
| PyInt (n : Z)
| PyFloat (x : spec_float).

Definition to_float (num : pynum) : result exn spec_float :=
  match num with
  | PyInt n =>
      match Float.of_int n with
      | Some x => Ok x
      | None => Err OverflowError
      end
  | PyFloat x => Ok x
  end.

(** [abs(num) < 1024.0]; an int is compared with a float exactly. *)
Definition abs_lt_1024 (num : pynum) : bool :=
  match num with
  | PyInt n => Z.abs n <? 1024
  | PyFloat x => Float.ltb (Float.abs x) Float.c1024
  end.

(** [num /= 1024.0] *)
Definition div_1024 (num : pynum) : result exn pynum :=
  x <- to_float num ;;
  Ok (PyFloat (Float.div x Float.c1024)).

(** The units of the [for] loop of [sizeof_fmt]. *)
Definition units : list string := ["" ; "K"; "M"; "G"; "T"; "P"; "E"; "Z"].

(** The [for] loop of [sizeof_fmt] on the units that are left, and the
    [return] after it.  The format in the loop is ["%3.1f%s%s"], the one
    after it is ["%.1f%s%s"]. *)
Fixpoint sizeof_fmt_loop (us : list string) (num : pynum) (suffix : string)
  : result exn string :=
  match us with
  | [] =>
      x <- to_float num ;;
      Ok (format_1f x ++ "Yi" ++ suffix)
  | unit :: us' =>
      if abs_lt_1024 num then
        x <- to_float num ;;
        Ok (pad_left 3 (format_1f x) ++ unit ++ suffix)
      else
        num' <- div_1024 num ;;
        sizeof_fmt_loop us' num' suffix
  end.

(** [sizeof_fmt(num, suffix)] (lines 9 to 14). *)
Definition sizeof_fmt (num : Z) (suffix : string) : result exn string :=
  sizeof_fmt_loop units (PyInt num) suffix.

(** The default of the keyword argument [suffix]. *)
Definition suffix_default : string := "B".

(** ** Strings *)

(** [s.lower()] on ASCII letters.  The only use is the membership test in
    [["jpg"; "jpeg"]], and no character outside ASCII lower-cases to one of
    the letters j, p, e, g. *)
Definition lower_ascii (c : ascii) : ascii :=
  let n := nat_of_ascii c in
  if ((65 <=? n) && (n <=? 90))%nat then ascii_of_nat (n + 32) else c.

Fixpoint lower (s : string) : string :=
  match s with
  | EmptyString => EmptyString
  | String c s' => String (lower_ascii c) (lower s')
  end.

(** [s.split(sep)] for a one-character separator.  The result is never
    empty, so that its last element, [[-1]], exists. *)
Fixpoint split (sep : ascii) (s : string) : list string :=
  match s with
  | EmptyString => [EmptyString]
  | String c s' =>
      if Ascii.eqb c sep then EmptyString :: split sep s'
      else match split sep s' with
           | [] => [String c EmptyString]
           | w :: ws => String c w :: ws
           end
  end.

(** [x in l] for a list of strings. *)
Definition str_in (x : string) (l : list string) : bool :=
  existsb (String.eqb x) l.

(** [s.rfind(c)]: the index of the last occurrence, [-1] when there is none. *)
Fixpoint rfind_from (c : ascii) (s : string) (i : Z) (found : Z) : Z :=
  match s with
  | EmptyString => found
  | String d s' => rfind_from c s' (i + 1) (if Ascii.eqb d c then i else found)
  end.

Definition rfind (c : ascii) (s : string) : Z := rfind_from c s 0 (-1).

(** [s[:i]] and [s[i:]] for [0 <= i]. *)
Definition slice_to (s : string) (i : Z) : string :=
  substring 0 (Z.to_nat i) s.
Definition slice_from (s : string) (i : Z) : string :=
  substring (Z.to_nat i) (String.length s - Z.to_nat i) s.

(** [s.find(c)]: the index of the first occurrence, [-1] when there is
    none. *)
Fixpoint find_from (c : ascii) (s : string) (i : Z) : Z :=
  match s with
  | EmptyString => -1
  | String d s' => if Ascii.eqb d c then i else find_from c s' (i + 1)
  end.

Definition find (c : ascii) (s : string) : Z := find_from c s 0.

(** The loop of [genericpath._splitext] that skips leading dots: is there a
    character other than the dot among the [count] characters from
    [filenameIndex] on? *)
Fixpoint non_dot_before (p : string) (filenameIndex : nat) (count : nat) : bool :=
  match count with
  | O => false
  | S count' =>
      match get filenameIndex p with
      | Some c =>
          if Ascii.eqb c "." then non_dot_before p (S filenameIndex) count'
          else true
      | None => true
      end
  end.

(** [os.path.splitext] of [posixpath]: the separator is the slash and there
    is no alternative separator. *)
Definition splitext (p : string) : string * string :=
  let sepIndex := rfind "/" p in
  let dotIndex := rfind "." p in
  if (dotIndex >? sepIndex)
     && non_dot_before p (Z.to_nat (sepIndex + 1))
                       (Z.to_nat (dotIndex - (sepIndex + 1)))
  then (slice_to p dotIndex, slice_from p dotIndex)
  else (p, EmptyString).

(** ** Files, the codec and the archive *)

Definition bytes : Type := list Byte.byte.

(** [len(b)] *)
Definition len (b : bytes) : Z := Z.of_nat (List.length b).

(** A file handed over by the upload widget: a byte stream with a name. *)
Record UploadedFile : Type := mkUploadedFile {
  name : string;
  getvalue : bytes
}.

(** What [Image.open] is given: a fresh [io.BytesIO] around some bytes, or
    the uploaded file object itself. *)
Inductive fileobj : Type :=
| BytesIO (data : bytes)
| Upload (f : UploadedFile).

(** The image library.  [format] is the attribute [img.format], which is
    [None] when the library knows no format for the image.  [save img fmt
    optimize] is the content of a fresh buffer after
    [img.save(buffer, format=fmt)], with [optimize=True] when the flag is
    set.  Every operation may raise. *)
Record Codec : Type := mkCodec {
  Image : Type;
  Image_open : fileobj -> result exn Image;
  format : Image -> option string;
  convert : Image -> string -> result exn Image;
  save : Image -> string -> bool -> result exn bytes
}.

(** [zipfile.ZIP_STORED] and [zipfile.ZIP_DEFLATED]. *)
Inductive zip_method : Type := ZIP_STORED | ZIP_DEFLATED.

Record ZipEntry : Type := mkZipEntry {
  entry_name : string;
  entry_data : bytes;
  entry_method : zip_method
}.

(** An open [zipfile.ZipFile]: the compression method it was opened with and
    the entries written so far, in order (a repeated name adds an entry). *)
Record ZipFile : Type := mkZipFile {
  compression : zip_method;
  entries : list ZipEntry
}.

(** [chr(0)] *)
Definition NUL : ascii := Ascii.zero.

(** The file name that [zipfile.ZipInfo(filename)] keeps: the name is
    terminated at the first null character.  (The separator of [os] is the
    slash, so no separator is replaced.) *)
Definition ZipInfo_filename (filename : string) : string :=
  let null_byte := find NUL filename in
  if null_byte >=? 0 then slice_to filename null_byte else filename.

(** The archive library, an opaque capability like the codec.  The archive
    is opened on an empty buffer in the mode [a] with [allowZip64=False].
    [writecheck z arcname data] is the exception, if any, that
    [z.writestr(arcname, data)] raises: IndexError for a name that is empty
    once it is terminated at a null character, LargeZipFile from the limit
    checks on the number of entries, the size of the data and the offset,
    struct.error for a name of more than 65535 bytes, UnicodeEncodeError
    for a name that cannot be encoded.  [closecheck z] is the exception, if
    any, that closing [z] raises when it writes the end records
    (LargeZipFile on the offset or the size of the central directory). *)
Record ZipLib : Type := mkZipLib {
  writecheck : ZipFile -> string -> bytes -> option exn;
  closecheck : ZipFile -> option exn
}.

(** [z.writestr(arcname, data)]: a call that returns has added one entry,
    under the name that [ZipInfo] keeps, with the method of the archive; a
    call that raises has added none. *)
Definition writestr (L : ZipLib) (z : ZipFile) (arcname : string) (data : bytes)
  : result exn ZipFile :=
  match writecheck L z arcname data with
  | Some e => Err e
  | None =>
      Ok (mkZipFile (compression z)
                    (entries z ++ [mkZipEntry (ZipInfo_filename arcname) data
                                              (compression z)]))
  end.

(** Leaving the [with] block of an archive ([ZipFile.__exit__]) closes it,
    also when the block raised; an exception of [close] replaces the one
    that ended the block. *)
Definition exit_with (L : ZipLib) (block : ZipFile * option exn)
  : result exn ZipFile :=
  let '(zip_file, raised) := block in
  match closecheck L zip_file, raised with
  | Some e, _ => Err e
  | None, Some e => Err e
  | None, None => Ok zip_file
  end.

(** [l[i]] for [0 <= i]. *)
Definition index {A : Type} (l : list A) (i : nat) : result exn A :=
  match nth_error l i with
  | Some a => Ok a
  | None => Err IndexError
  end.

Section Program.

Variable C : Codec.

(** [lossless_compression(img, img_format)] (lines 17 to 42): the content
    of the buffer it returns and the number it returns. *)
Definition lossless_compression (img : Image C) (img_format : string)
  : result exn (bytes * Z) :=
  img <- convert C img "RGB" ;;
  original_buffer <- save C img img_format false ;;
  let original_size := len original_buffer in
  compressed_buffer <- save C img img_format true ;;
  let compressed_size := len compressed_buffer in
  Ok (compressed_buffer, original_size - compressed_size).

(** The loop body of [process_images] up to the opened image (lines 50 to
    58): the extension selects how the file is given to [Image.open]. *)
Definition open_upload (uploaded_file : UploadedFile) : result exn (Image C) :=
  let img_format := last (split "." (name uploaded_file)) "" in
  if str_in (lower img_format) ["jpg"; "jpeg"] then
    let img_data := getvalue uploaded_file in
    Image_open C (BytesIO img_data)
  else
    Image_open C (Upload uploaded_file).

(** [img.format.lower()] (line 61); the attribute access raises when the
    format is [None]. *)
Definition format_lower (img : Image C) : result exn string :=
  match format C img with
  | Some f => Ok (lower f)
  | None => Err AttributeError
  end.

(** The loop body of [process_images] up to the two appends (lines 50 to
    64). *)
Definition process_image (uploaded_file : UploadedFile) : result exn (bytes * Z) :=
  img <- open_upload uploaded_file ;;
  img_format <- format_lower img ;;
  lossless_compression img img_format.

(** The [for] loop of [process_images] on the files that are left, with the
    two lists built so far. *)
Fixpoint process_images_loop (uploaded_files : list UploadedFile)
  (compressed_images : list bytes) (space_saved : list Z)
  : result exn (list bytes * list Z) :=
  match uploaded_files with
  | [] => Ok (compressed_images, space_saved)
  | uploaded_file :: rest =>
      '(compressed_img, saved) <- process_image uploaded_file ;;
      process_images_loop rest (compressed_images ++ [compressed_img])
                               (space_saved ++ [saved])
  end.

(** [process_images(uploaded_files)] (lines 45 to 68). *)
Definition process_images (uploaded_files : list UploadedFile)
  : result exn (list bytes * list Z) :=
  process_images_loop uploaded_files [] [].

End Program.

(** ** The page *)

(** The dict kept in [session_state.processed_images]. *)
Record Processed : Type := mkProcessed {
  compressed_images : list bytes;
  space_saved : list Z;
  original_filenames : list string
}.

(** [st.session_state]: the attribute [processed_images] is missing, or
    holds [None], or holds the dict. *)
Record SessionState : Type := mkSessionState {
  processed_images : option (option Processed)
}.

(** The name given to an archive entry in the loop that fills the archive
    (lines 103 to 105). *)
Definition optimized_filename (original_filename : string) : string :=
  let '(filename, file_extension) := splitext original_filename in
  let img_extension := slice_from file_extension 1 in
  filename ++ "_optimized." ++ img_extension.

(** A cell of the gallery: the column, the image shown and its caption. *)
Record Cell : Type := mkCell {
  cell_column : nat;
  cell_image : bytes;
  cell_caption : string
}.

(** The body of the two nested gallery loops at row [i], column [j] (lines
    123 to 126). *)
Definition gallery_cell (filenames : list string) (images : list bytes)
  (saved : list Z) (i j : nat) : result exn (option Cell) :=
  let num_images := List.length images in
  let index_ := (i * 4 + j)%nat in
  if (index_ <? num_images)%nat then
    original_filename <- index filenames index_ ;;
    img <- index images index_ ;;
    s <- index saved index_ ;;
    size <- sizeof_fmt s suffix_default ;;
    Ok (Some (mkCell j img (original_filename ++ " -- Space Saved: " ++ size)))
  else Ok None.

Fixpoint gallery_loop (filenames : list string) (images : list bytes)
  (saved : list Z) (positions : list (nat * nat)) : result exn (list Cell) :=
  match positions with
  | [] => Ok []
  | (i, j) :: rest =>
      c <- gallery_cell filenames images saved i j ;;
      cs <- gallery_loop filenames images saved rest ;;
      Ok (match c with Some x => x :: cs | None => cs end)
  end.

(** The pairs [(i, j)] of the two nested [range] loops, in the order they are
    visited. *)
Definition positions (num_rows : nat) : list (nat * nat) :=
  flat_map (fun i => map (fun j => (i, j)) (seq 0 4)) (seq 0 num_rows).

(** What one run of the script renders below the upload widget. *)
Record Page : Type := mkPage {
  download_data : ZipFile;
  download_file_name : string;
  download_mime : string;
  gallery : list Cell
}.

Section Main.

Variable C : Codec.
Variable L : ZipLib.

(** The loop that fills the archive (lines 101 to 106): the name of the
    image at position [i] is looked up in the stored file names.  The
    archive is an object that the loop changes: the result is the archive
    as the loop leaves it and the exception, if any, that ended the loop. *)
Fixpoint zip_loop (cached_filenames : list string) (zip_file : ZipFile)
  (i : nat) (images : list bytes) : ZipFile * option exn :=
  match images with
  | [] => (zip_file, None)
  | compressed_img :: rest =>
      match (original_filename <- index cached_filenames i ;;
             writestr L zip_file (optimized_filename original_filename)
                      compressed_img) with
      | Ok zip_file' => zip_loop cached_filenames zip_file' (S i) rest
      | Err e => (zip_file, Some e)
      end
  end.

(** One run of [main] (lines 71 to 126) on the uploads that the widget
    returns: the session state it leaves and what it renders ([None] when
    nothing is uploaded), or the exception that ends it.  The assignment to
    the session state stays when a later statement raises. *)
Definition main (session_state : SessionState)
  (uploaded_files : list UploadedFile)
  : SessionState * result exn (option Page) :=
  let session_state :=
    match processed_images session_state with
    | None => mkSessionState (Some None)
    | Some _ => session_state
    end in
  match uploaded_files with
  | [] => (session_state, Ok None)
  | _ :: _ =>
      let processed :=
        match processed_images session_state with
        | Some (Some d) => Ok d
        | _ =>
            '(images, saved) <- process_images C uploaded_files ;;
            Ok (mkProcessed images saved (map name uploaded_files))
        end in
      match processed with
      | Err e => (session_state, Err e)
      | Ok d =>
          let images := compressed_images d in
          let saved := space_saved d in
          (mkSessionState (Some (Some d)),
           zip_file <- exit_with L (zip_loop (original_filenames d)
                                             (mkZipFile ZIP_DEFLATED []) 0
                                             images) ;;
           let num_images := List.length images in
           let num_rows := ((num_images + 3) / 4)%nat in
           cells <- gallery_loop (original_filenames d) images saved
                                 (positions num_rows) ;;
           Ok (Some (mkPage zip_file "compressed_images.zip"
                            "application/zip" cells)))
      end
  end.

End Main.

(** * Auxiliary definitions for the statements *)

(** The entry written for an image and the file name cached with it. *)
Definition zip_entry (method : zip_method) (p : bytes * string) : ZipEntry :=
  mkZipEntry (ZipInfo_filename (optimized_filename (snd p))) (fst p) method.

(** What a run renders from the dict [d], however [d] was obtained. *)
Definition render (L : ZipLib) (d : Processed) : result exn (option Page) :=
  zip_file <- exit_with L (zip_loop L (original_filenames d)
                                   (mkZipFile ZIP_DEFLATED []) 0
                                   (compressed_images d)) ;;
  cells <- gallery_loop (original_filenames d) (compressed_images d)
             (space_saved d)
             (positions ((List.length (compressed_images d) + 3) / 4)%nat) ;;
  Ok (Some (mkPage zip_file "compressed_images.zip" "application/zip" cells)).

(** Does the session hold the results of a batch? *)
Definition cached (st : SessionState) : option Processed :=
  match processed_images st with
  | Some (Some d) => Some d
  | _ => None
  end.

(** A session of the page starts with nothing stored. *)
Definition new_session : SessionState := mkSessionState None.

(** The session state after runs of [main] on the given uploads, one run per
    element, in order. *)
Fixpoint run_session (C : Codec) (L : ZipLib) (st : SessionState)
  (batches : list (list UploadedFile)) : SessionState :=
  match batches with
  | [] => st
  | uploads :: rest => run_session C L (fst (main C L st uploads)) rest
  end.

(** The dict [d] holds what [process_images] returned for [files]. *)
Definition processed_from (C : Codec) (d : Processed)
  (files : list UploadedFile) : Prop :=
  process_images C files = Ok (compressed_images d, space_saved d) /\
  original_filenames d = map name files.

(** What a session stores was computed from uploads of its history. *)
Definition cache_from_history (C : Codec) (st : SessionState)
  (history : list (list UploadedFile)) : Prop :=
  forall d, cached st = Some d ->
            exists files, In files history /\ processed_from C d files.

(** A codec that differs from [C] in the baseline encode only. *)
Definition with_baseline (C : Codec)
  (baseline : Image C -> string -> result exn bytes) : Codec :=
  mkCodec (Image C) (Image_open C) (format C) (convert C)
          (fun img fmt optimize =>
             if optimize then save C img fmt true else baseline img fmt).

(** Two outcomes of an encode that cannot be told apart by the size of the
    buffer. *)
Definition same_size (a b : result exn bytes) : Prop :=
  match a, b with
  | Ok x, Ok y => len x = len y
  | Err e, Err e' => e = e'
  | _, _ => False
  end.

(** The files before the offending one were processed. *)
Definition all_processed (C : Codec) (pre : list UploadedFile) : Prop :=
  Forall (fun g => exists r, process_image C g = Ok r) pre.

(** The property of C4: from the exception that ends the batch one can read
    off the name of the file that could not be decoded. *)
Definition names_offending_file (C : Codec) (name_of : exn -> string) : Prop :=
  forall pre f post e,
    all_processed C pre ->
    open_upload C f = Err e ->
    exists e',
      process_images C (pre ++ f :: post) = Err e' /\ name_of e' = name f.

(** Decoding the file raises [e]: in [Image.open], or when
    [convert('RGB')] loads the data of the opened image. *)
Definition decode_fails (C : Codec) (f : UploadedFile) (e : exn) : Prop :=
  open_upload C f = Err e \/
  exists img reported,
    open_upload C f = Ok img /\ format C img = Some reported /\
    convert C img "RGB" = Err e.



(** Does the character occur in the string? *)
Fixpoint occurs (c : ascii) (s : string) : bool :=
  match s with
  | EmptyString => false
  | String d s' => Ascii.eqb d c || occurs c s'
  end.

(** The part of a name before its last dot has a character other than the
    dot in the final path component. *)
Definition has_stem (base : string) : Prop :=
  exists pre c post,
    base = pre ++ String c post /\
    Ascii.eqb c "." = false /\ occurs "/" (String c post) = false.

(** C6 in the words of the specification: the name is cut at its last
    dot. *)
Definition cut_at_last_dot (n : string) : string * string :=
  let i := rfind "." n in (slice_to n i, slice_from n (i + 1)).

Definition optimized_name_by_last_dot (n : string) : string :=
  let '(base, ext) := cut_at_last_dot n in base ++ "_optimized." ++ ext.

(** A mantissa of 53 bits. *)
Definition normal53 (m : positive) : Prop := digits2_pos m = 53%positive.

(** [float(n)] in exact arithmetic: [n] rounded to 53 significant bits,
    ties to even. *)
Definition round53 (n : Z) : Z :=
  let a := Z.abs n in
  let p := Z.log2 a + 1 - 53 in
  if p <=? 0 then n else Z.sgn n * (round_half_even a (2 ^ p) * 2 ^ p).

(** The double with mantissa [m] and exponent [e] has the magnitude
    [a / b]. *)
Definition represents (m : positive) (e a b : Z) : Prop :=
  0 < b /\ Zpos m * 2 ^ (e + 1074) * b = a * 2 ^ 1074.

(** C3 in the words of the specification: the magnitude is scaled by 1024
    through the units until it is below 1024 or the units are used up. *)
Fixpoint pick_unit (us : list string) (a b : Z) : Z * string :=
  match us with
  | [] => (b, "Yi")
  | u :: us' => if a <? 1024 * b then (b, u) else pick_unit us' a (1024 * b)
  end.

Definition format_size (n : Z) : string :=
  let a := Z.abs (round53 n) in
  let '(b, u) := pick_unit units a 1 in
  (minus_sign (n <? 0) ++ fixed1 (round_half_even (10 * a) b)) ++ u ++ "B".

(** Is [c] the first character of [s]? *)
Definition starts_with (c : ascii) (s : string) : bool :=
  match s with
  | EmptyString => false
  | String d _ => Ascii.eqb d c
  end.

(** The cell that the gallery shows for the image at position [k]: column
    [k mod 4], the image, and the stored name with the formatted number. *)
Definition gallery_cell_at (filenames : list string) (images : list bytes)
  (saved : list Z) (k : nat) (c : Cell) : Prop :=
  exists original_filename img s size,
    nth_error filenames k = Some original_filename /\
    nth_error images k = Some img /\
    nth_error saved k = Some s /\
    sizeof_fmt s suffix_default = Ok size /\
    c = mkCell (k mod 4) img (original_filename ++ " -- Space Saved: " ++ size).

(** The three lists of a stored dict have one length. *)
Definition lengths_agree (d : Processed) : Prop :=
  List.length (space_saved d) = List.length (compressed_images d) /\
  List.length (original_filenames d) = List.length (compressed_images d).

(** The number has a nearest double. *)
Definition in_double_range (s : Z) : Prop := Z.abs s < 2 ^ 1024 - 2 ^ 970.

(** Is the character a decimal digit? *)
Definition is_digit (c : ascii) : bool :=
  let n := nat_of_ascii c in ((48 <=? n) && (n <=? 57))%nat.

Fixpoint all_digits (s : string) : bool :=
  match s with
  | EmptyString => true
  | String c s' => is_digit c && all_digits s'
  end.

(** The archive library accepts the writes of the named buffers to [z], one
    after the other, and then the close. *)
Fixpoint accepts (L : ZipLib) (z : ZipFile) (items : list (string * bytes))
  : Prop :=
  match items with
  | [] => closecheck L z = None
  | (arcname, data) :: rest =>
      writecheck L z arcname data = None /\
      accepts L (mkZipFile (compression z)
                   (entries z ++ [mkZipEntry (ZipInfo_filename arcname) data
                                             (compression z)]))
              rest
  end.

(** Is the list of uploads of a run not empty? *)
Definition has_uploads (uploads : list UploadedFile) : bool :=
  match uploads with
  | [] => false
  | _ :: _ => true
  end.


(** The dict that the first batch of a session with uploads and without a
    failure of [process_images] leaves. *)
Fixpoint first_processed (C : Codec) (batches : list (list UploadedFile))
  : option Processed :=
  match batches with
  | [] => None
  | uploads :: rest =>
      match uploads, process_images C uploads with
      | _ :: _, Ok (images, saved) =>
          Some (mkProcessed images saved (map name uploads))
      | _, _ => first_processed C rest
      end
  end.

(** ** A small codec to run the program on

    Images are tagged pixel strings.  The first byte of a file names its
    format: [x89] for PNG and [xff] for JPEG; [xfe] opens as a JPEG whose
    data cannot be loaded, so that it is in the mode [?]; [x00] opens as an
    image whose format attribute is [None]; anything else cannot be
    identified.  The
    baseline encode writes the pixels twice, the optimized one writes them
    once and adds a trailer byte, so that optimizing an empty image costs a
    byte.  An image in the mode [?] cannot be converted. *)
Module Toy.

Record image : Type := mkImage {
  image_format : option string;
  image_mode : string;
  image_pixels : bytes
}.

Definition repr (fp : fileobj) : string :=
  match fp with
  | BytesIO _ => "<_io.BytesIO object>"
  | Upload f => "UploadedFile(name='" ++ name f ++ "')"
  end.

Definition content (fp : fileobj) : bytes :=
  match fp with
  | BytesIO data => data
  | Upload f => getvalue f
  end.

Definition UnidentifiedImageError (fp : fileobj) : exn :=
  Raise "UnidentifiedImageError" ("cannot identify image file " ++ repr fp).

Definition open (fp : fileobj) : result exn image :=
  match content fp with
  | Byte.x89 :: pixels => Ok (mkImage (Some "PNG") "RGBA" pixels)
  | Byte.xff :: pixels => Ok (mkImage (Some "JPEG") "RGB" pixels)
  | Byte.xfe :: pixels => Ok (mkImage (Some "JPEG") "?" pixels)
  | Byte.x00 :: pixels => Ok (mkImage None "RGB" pixels)
  | _ => Err (UnidentifiedImageError fp)
  end.

Definition convert (img : image) (mode : string) : result exn image :=
  if String.eqb (image_mode img) "?" then
    Err (Raise "ValueError" "conversion not supported")
  else Ok (mkImage None mode (image_pixels img)).

Definition magic (fmt : string) : result exn Byte.byte :=
  if String.eqb fmt "png" then Ok Byte.x89
  else if String.eqb fmt "jpeg" then Ok Byte.xff
  else Err (Raise "KeyError" fmt).

Definition save (img : image) (fmt : string) (optimize : bool)
  : result exn bytes :=
  tag <- magic fmt ;;
  Ok (tag :: (if optimize then image_pixels img ++ [Byte.x00]
              else image_pixels img ++ image_pixels img)).

Definition codec : Codec := mkCodec image open image_format convert save.



(** An archive library with the checks of [zipfile] that a name or a
    number of entries can meet: a name that is empty once it is terminated,
    65535 entries in the archive, a name of more than 65535 characters.
    Closing never raises. *)
Definition ziplib : ZipLib :=
  mkZipLib
    (fun z arcname _ =>
       match ZipInfo_filename arcname with
       | EmptyString => Some (Raise "IndexError" "string index out of range")
       | String _ _ as filename =>
           if 65535 <=? Z.of_nat (List.length (entries z))
           then Some (Raise "LargeZipFile"
                            "Files count would require ZIP64 extensions")
           else if 65535 <? Z.of_nat (String.length filename)
           then Some (Raise "struct.error"
                            "ushort format requires 0 <= number <= 65535")
           else None
       end)
    (fun _ => None).

Definition png_pixels : bytes := [Byte.x89; Byte.x01; Byte.x02; Byte.x03].
Definition jpeg_pixels : bytes := [Byte.xff; Byte.x0a; Byte.x0b].
Definition corrupt : bytes := [Byte.x42; Byte.x4d].
Definition truncated : bytes := [Byte.xfe; Byte.x0a].

End Toy.

(** * Properties *)

(** ** The error monad *)

Lemma bind_Ok_inv {E A B : Type} (m : result E A) (k : A -> result E B) (b : B) :
  bind m k = Ok b -> exists a, m = Ok a /\ k a = Ok b.
Proof.
  destruct m as [a|e]; simpl; intros H; [eauto | discriminate].
Qed.

Lemma bind_Err_inv {E A B : Type} (m : result E A) (k : A -> result E B) (e : E) :
  bind m k = Err e -> m = Err e \/ exists a, m = Ok a /\ k a = Err e.
Proof.
  destruct m as [a|e']; simpl; intros H; [right; eauto | left; congruence].
Qed.

Ltac inv_bind H :=
  let a := fresh "a" in
  let Ha := fresh "Ha" in
  apply bind_Ok_inv in H; destruct H as (a & Ha & H).

(** ** Compressing one image *)

Section CompressionFacts.

Variable C : Codec.

Lemma lossless_compression_Ok (img : Image C) (img_format : string)
      (buf : bytes) (saved : Z) :
  lossless_compression C img img_format = Ok (buf, saved) <->
  exists rgb original_buffer,
    convert C img "RGB" = Ok rgb /\
    save C rgb img_format false = Ok original_buffer /\
    save C rgb img_format true = Ok buf /\
    saved = len original_buffer - len buf.
Proof.
  unfold lossless_compression. split.
  - intros H. inv_bind H. inv_bind H. inv_bind H.
    injection H as <- <-. eauto 7.
  - intros (rgb & ob & -> & Hb & Ho & ->). simpl.
    rewrite Hb. simpl. rewrite Ho. reflexivity.
Qed.

(** The loop of [process_images] is a traversal that keeps what was
    accumulated and adds one image and one number per file, at the end. *)
Lemma process_images_loop_Ok (files : list UploadedFile) :
  forall acc1 acc2 imgs saved,
    process_images_loop C files acc1 acc2 = Ok (imgs, saved) ->
    exists rs,
      Forall2 (fun f r => process_image C f = Ok r) files rs /\
      imgs = (acc1 ++ map fst rs)%list /\ saved = (acc2 ++ map snd rs)%list.
Proof.
  induction files as [|f files IH]; simpl; intros acc1 acc2 imgs saved H.
  - injection H as <- <-. exists []. rewrite !app_nil_r. auto.
  - inv_bind H. destruct a as [buf s].
    apply IH in H. destruct H as (rs & Hrs & -> & ->).
    exists ((buf, s) :: rs). simpl. rewrite <- !app_assoc. auto.
Qed.

Lemma process_images_loop_total (files : list UploadedFile) :
  forall rs acc1 acc2,
    Forall2 (fun f r => process_image C f = Ok r) files rs ->
    process_images_loop C files acc1 acc2
    = Ok ((acc1 ++ map fst rs)%list, (acc2 ++ map snd rs)%list).
Proof.
  induction files as [|f files IH]; intros rs acc1 acc2 H; inversion H; subst.
  - simpl. now rewrite !app_nil_r.
  - simpl. match goal with Hy : process_image C f = Ok ?y |- _ =>
      rewrite Hy; destruct y as [buf s] end.
    simpl. erewrite IH by eassumption. now rewrite <- !app_assoc.
Qed.

(** The first file that cannot be processed ends the loop with its
    exception, whatever was accumulated. *)
Lemma process_images_loop_Err (files : list UploadedFile) :
  forall acc1 acc2 e,
    process_images_loop C files acc1 acc2 = Err e <->
    exists pre f post rs,
      files = (pre ++ f :: post)%list /\
      Forall2 (fun f r => process_image C f = Ok r) pre rs /\
      process_image C f = Err e.
Proof.
  induction files as [|f files IH]; simpl; intros acc1 acc2 e.
  - split; [discriminate|].
    intros (pre & f & post & rs & H & _). now destruct pre.
  - split.
    + intros H. apply bind_Err_inv in H. destruct H as [H | ([buf s] & Hf & H)].
      * exists [], f, files, []. auto.
      * apply IH in H. destruct H as (pre & g & post & rs & -> & Hrs & Hg).
        exists (f :: pre), g, post, ((buf, s) :: rs). auto.
    + intros (pre & g & post & rs & Heq & Hrs & Hg).
      destruct pre as [|p pre]; simpl in Heq; injection Heq as <- ->.
      * now rewrite Hg.
      * inversion Hrs as [|? y ? ? Hp Hrest]; subst. rewrite Hp.
        destruct y as [buf s]. simpl. apply IH. eauto 7.
Qed.

End CompressionFacts.

(** ** The archive and the page *)

Lemma index_Ok {A : Type} (l : list A) (i : nat) (a : A) :
  index l i = Ok a <-> nth_error l i = Some a.
Proof.
  unfold index. destruct (nth_error l i); split; congruence.
Qed.

Lemma skipn_nth_error_cons {A : Type} (l : list A) :
  forall i a, nth_error l i = Some a -> skipn i l = a :: skipn (S i) l.
Proof.
  induction l as [|x l IH]; intros [|i] a H; simpl in *; try discriminate.
  - now injection H as ->.
  - now apply IH.
Qed.

Section PageFacts.

Variable C : Codec.
Variable L : ZipLib.

Lemma writestr_Ok (z z' : ZipFile) (arcname : string) (data : bytes) :
  writestr L z arcname data = Ok z' ->
  z' = mkZipFile (compression z)
         (entries z ++ [mkZipEntry (ZipInfo_filename arcname) data
                                   (compression z)]).
Proof.
  unfold writestr. destruct (writecheck L z arcname data); congruence.
Qed.

Lemma exit_with_Ok (z z' : ZipFile) (raised : option exn) :
  exit_with L (z, raised) = Ok z' ->
  raised = None /\ z' = z /\ closecheck L z = None.
Proof.
  unfold exit_with. destruct (closecheck L z), raised; try discriminate.
  intros H. injection H as <-. auto.
Qed.

Lemma zip_loop_Ok (images : list bytes) :
  forall names z i z',
    zip_loop L names z i images = (z', None) ->
    compression z' = compression z /\
    (List.length images <= List.length (skipn i names))%nat /\
    entries z' = (entries z ++
                  map (zip_entry (compression z))
                      (combine images (skipn i names)))%list.
Proof.
  induction images as [|b images IH]; cbn [zip_loop]; intros names z i z' H.
  - injection H as <-. simpl. rewrite app_nil_r. auto with arith.
  - destruct (index names i) as [n|e] eqn:Hn; cbn [bind] in H;
      [|discriminate].
    destruct (writestr L z (optimized_filename n) b) as [z1|e] eqn:Hw;
      [|discriminate].
    apply index_Ok in Hn. apply writestr_Ok in Hw. subst z1.
    apply IH in H. simpl in H. destruct H as (Hc & Hl & He).
    rewrite (skipn_nth_error_cons _ _ _ Hn). simpl.
    rewrite He, <- app_assoc. simpl. auto with arith.
Qed.

Lemma main_cached (st : SessionState) (d : Processed)
      (f : UploadedFile) (files : list UploadedFile) :
  cached st = Some d ->
  main C L st (f :: files) = (mkSessionState (Some (Some d)), render L d).
Proof.
  unfold cached, main. destruct st as [[[d'|]|]]; simpl; try discriminate.
  intros H. injection H as ->. reflexivity.
Qed.

Lemma main_not_cached (st : SessionState)
      (f : UploadedFile) (files : list UploadedFile) :
  cached st = None ->
  main C L st (f :: files) =
  match process_images C (f :: files) with
  | Ok (images, saved) =>
      let d := mkProcessed images saved (map name (f :: files)) in
      (mkSessionState (Some (Some d)), render L d)
  | Err e => (mkSessionState (Some None), Err e)
  end.
Proof.
  unfold cached, main.
  destruct st as [[[d'|]|]]; cbn [processed_images]; try discriminate;
    intros _; destruct (process_images C (f :: files)) as [[images saved]|e];
    reflexivity.
Qed.

Lemma render_Ok (d : Processed) (page : Page) :
  render L d = Ok (Some page) ->
  compression (download_data page) = ZIP_DEFLATED /\
  (List.length (compressed_images d) <= List.length (original_filenames d))%nat /\
  entries (download_data page)
  = map (zip_entry ZIP_DEFLATED)
        (combine (compressed_images d) (original_filenames d)).
Proof.
  unfold render. intros H.
  destruct (zip_loop L (original_filenames d) (mkZipFile ZIP_DEFLATED []) 0
                     (compressed_images d)) as [z raised] eqn:Hz.
  inv_bind H. inv_bind H. injection H as <-.
  apply exit_with_Ok in Ha. destruct Ha as (-> & -> & _).
  apply zip_loop_Ok in Hz. simpl in *. exact Hz.
Qed.

End PageFacts.

(** ** The batch *)

Lemma process_image_Ok (C : Codec) (f : UploadedFile) (buf : bytes) (saved : Z) :
  process_image C f = Ok (buf, saved) ->
  exists img reported,
    open_upload C f = Ok img /\ format C img = Some reported /\
    lossless_compression C img (lower reported) = Ok (buf, saved).
Proof.
  unfold process_image. intros H. inv_bind H. inv_bind H.
  unfold format_lower in Ha0. destruct (format C a) as [reported|] eqn:Hf;
    [|discriminate].
  injection Ha0 as <-. eauto.
Qed.

Lemma Forall2_nth_error_l {A B : Type} (R : A -> B -> Prop) (l1 : list A) :
  forall l2 i a,
    Forall2 R l1 l2 -> nth_error l1 i = Some a ->
    exists b, nth_error l2 i = Some b /\ R a b.
Proof.
  induction l1 as [|x l1 IH]; intros l2 i a H Hi; inversion H; subst;
    destruct i as [|i]; simpl in *; try discriminate.
  - injection Hi as ->. eauto.
  - eauto.
Qed.

Lemma nth_error_combine {A B : Type} (l1 : list A) :
  forall (l2 : list B) i a b,
    nth_error l1 i = Some a -> nth_error l2 i = Some b ->
    nth_error (combine l1 l2) i = Some (a, b).
Proof.
  induction l1 as [|x l1 IH]; intros [|y l2] [|i] a b H1 H2; simpl in *;
    try discriminate.
  - congruence.
  - auto.
Qed.

Section BatchFacts.

Variable C : Codec.

Lemma process_images_Ok (files : list UploadedFile)
      (imgs : list bytes) (saved : list Z) :
  process_images C files = Ok (imgs, saved) <->
  exists rs,
    Forall2 (fun f r => process_image C f = Ok r) files rs /\
    imgs = map fst rs /\ saved = map snd rs.
Proof.
  unfold process_images. split.
  - intros H. apply process_images_loop_Ok in H. exact H.
  - intros (rs & H & -> & ->).
    now rewrite (process_images_loop_total C files rs [] []).
Qed.

Lemma process_images_nth (files : list UploadedFile)
      (imgs : list bytes) (saved : list Z) :
  process_images C files = Ok (imgs, saved) ->
  List.length imgs = List.length files /\
  List.length saved = List.length files /\
  forall i f,
    nth_error files i = Some f ->
    exists buf s,
      process_image C f = Ok (buf, s) /\
      nth_error imgs i = Some buf /\ nth_error saved i = Some s.
Proof.
  intros H. apply process_images_Ok in H. destruct H as (rs & H & -> & ->).
  rewrite !length_map, (Forall2_length H). repeat split.
  intros i f Hi.
  destruct (Forall2_nth_error_l _ _ _ _ _ H Hi) as ([buf s] & Hr & Hf).
  exists buf, s. rewrite !nth_error_map, Hr. auto.
Qed.

Variable L : ZipLib.

(** A run that starts without cached results and renders a page has an
    archive entry for each upload, at the upload's position. *)
Lemma main_fresh_entries (st st' : SessionState) (files : list UploadedFile)
      (page : Page) :
  cached st = None ->
  main C L st files = (st', Ok (Some page)) ->
  exists imgs saved,
    process_images C files = Ok (imgs, saved) /\
    cached st' = Some (mkProcessed imgs saved (map name files)) /\
    compression (download_data page) = ZIP_DEFLATED /\
    entries (download_data page)
    = map (zip_entry ZIP_DEFLATED) (combine imgs (map name files)).
Proof.
  intros Hst H. destruct files as [|f files].
  - unfold main in H. destruct (processed_images st); discriminate.
  - rewrite (main_not_cached C L st f files Hst) in H.
    destruct (process_images C (f :: files)) as [[imgs saved]|e];
      [|discriminate].
    cbv zeta in H. injection H as <- H.
    apply render_Ok in H. cbn [compressed_images original_filenames] in H.
    destruct H as (Hc & _ & He). exists imgs, saved. auto.
Qed.

End BatchFacts.

(** ** Bytes saved *)

(** C1: whenever [lossless_compression] returns, the number it returns is
    the size of the baseline encode (no optimize flag) minus the size of the
    optimized encode (optimize flag set) of the same RGB-converted image; so
    is the number at the position of each file of a batch that
    [process_images] accepts.  Nothing makes the difference non-negative. *)
Theorem bytes_saved_is_baseline_minus_optimized (C : Codec) :
  (forall (img : Image C) img_format buf saved,
      lossless_compression C img img_format = Ok (buf, saved) ->
      exists rgb baseline optimized,
        convert C img "RGB" = Ok rgb /\
        save C rgb img_format false = Ok baseline /\
        save C rgb img_format true = Ok optimized /\
        saved = len baseline - len optimized) /\
  (forall files imgs saved,
      process_images C files = Ok (imgs, saved) ->
      forall i f,
        nth_error files i = Some f ->
        exists img reported rgb baseline optimized,
          open_upload C f = Ok img /\
          format C img = Some reported /\
          convert C img "RGB" = Ok rgb /\
          save C rgb (lower reported) false = Ok baseline /\
          save C rgb (lower reported) true = Ok optimized /\
          nth_error saved i = Some (len baseline - len optimized)).
Proof.
  split.
  - intros img img_format buf saved H. apply lossless_compression_Ok in H.
    destruct H as (rgb & baseline & Hc & Hb & Ho & ->).
    exists rgb, baseline, buf. auto.
  - intros files imgs saved H i f Hi.
    destruct (process_images_nth C files imgs saved H) as (_ & _ & Hn).
    destruct (Hn i f Hi) as (buf & s & Hf & _ & Hs).
    apply process_image_Ok in Hf. destruct Hf as (img & reported & Ho & Hr & Hc).
    apply lossless_compression_Ok in Hc.
    destruct Hc as (rgb & baseline & Hrgb & Hb & Hopt & ->).
    exists img, reported, rgb, baseline, buf. auto 10.
Qed.

(** On an image without pixels the optimized encode of the small codec is
    one byte longer than the baseline: the number returned is [-1]. *)
Lemma bytes_saved_is_baseline_minus_optimized_negative :
  let img := Toy.mkImage (Some "PNG") "RGBA" [] in
  let f := mkUploadedFile "empty.png" [Byte.x89] in
  lossless_compression Toy.codec img "png" = Ok ([Byte.x89; Byte.x00], -1) /\
  (exists rgb baseline optimized,
      convert Toy.codec img "RGB" = Ok rgb /\
      save Toy.codec rgb "png" false = Ok baseline /\
      save Toy.codec rgb "png" true = Ok optimized /\
      -1 = len baseline - len optimized) /\
  process_images Toy.codec [f] = Ok ([[Byte.x89; Byte.x00]], [-1]) /\
  (exists baseline optimized,
      nth_error [-1] 0 = Some (len baseline - len optimized)).
Proof.
  intros img f.
  destruct (bytes_saved_is_baseline_minus_optimized Toy.codec) as [H1 H2].
  split; [reflexivity|]. split.
  - exact (H1 img "png" [Byte.x89; Byte.x00] (-1) eq_refl).
  - split; [reflexivity|].
    destruct (H2 [f] [[Byte.x89; Byte.x00]] [-1] eq_refl 0%nat f eq_refl)
      as (_ & _ & _ & baseline & optimized & _ & _ & _ & _ & _ & Hs).
    exists baseline, optimized. exact Hs.
Defined.

(** ** What is encoded and what is kept *)

(** C7: the image is converted to RGB before anything is encoded, both
    encodes are of the converted image, the buffer returned is the optimized
    encode, and the baseline encode contributes its size and nothing else:
    images with the same conversion give the same outcome, and so do codecs
    whose baseline encodes differ in content but not in size. *)
Theorem lossless_compression_keeps_optimized_rgb_encode
        (C : Codec) (img : Image C) (img_format : string) :
  (forall buf saved,
      lossless_compression C img img_format = Ok (buf, saved) ->
      exists rgb baseline,
        convert C img "RGB" = Ok rgb /\
        save C rgb img_format true = Ok buf /\
        save C rgb img_format false = Ok baseline /\
        saved = len baseline - len buf) /\
  (forall e, convert C img "RGB" = Err e ->
             lossless_compression C img img_format = Err e) /\
  (forall img', convert C img' "RGB" = convert C img "RGB" ->
                lossless_compression C img' img_format
                = lossless_compression C img img_format) /\
  (forall baseline',
      (forall rgb, same_size (baseline' rgb img_format)
                             (save C rgb img_format false)) ->
      lossless_compression (with_baseline C baseline') img img_format
      = lossless_compression C img img_format).
Proof.
  repeat split.
  - intros buf saved H. apply lossless_compression_Ok in H.
    destruct H as (rgb & baseline & Hc & Hb & Ho & ->). eauto 6.
  - intros e H. unfold lossless_compression. now rewrite H.
  - intros img' H. unfold lossless_compression. now rewrite H.
  - intros baseline' H. unfold lossless_compression, with_baseline. simpl.
    destruct (convert C img "RGB") as [rgb|e]; simpl; trivial.
    specialize (H rgb). unfold same_size in H.
    destruct (baseline' rgb img_format) as [x|e1],
             (save C rgb img_format false) as [y|e2]; simpl; try contradiction.
    + now rewrite H.
    + now subst.
Qed.

Lemma lossless_compression_keeps_optimized_rgb_encode_witness :
  let img := Toy.mkImage (Some "JPEG") "RGB" [Byte.x0a; Byte.x0b] in
  let img' := Toy.mkImage (Some "PNG") "RGBA" [Byte.x0a; Byte.x0b] in
  let odd := Toy.mkImage None "?" [] in
  let zeros := fun rgb fmt =>
                 b <- Toy.save rgb fmt false ;; Ok (map (fun _ => Byte.x00) b) in
  lossless_compression Toy.codec img "jpeg"
  = Ok ([Byte.xff; Byte.x0a; Byte.x0b; Byte.x00], 1) /\
  (exists rgb baseline,
      convert Toy.codec img "RGB" = Ok rgb /\
      save Toy.codec rgb "jpeg" true
      = Ok [Byte.xff; Byte.x0a; Byte.x0b; Byte.x00] /\
      save Toy.codec rgb "jpeg" false = Ok baseline /\
      1 = len baseline - len [Byte.xff; Byte.x0a; Byte.x0b; Byte.x00]) /\
  lossless_compression Toy.codec odd "jpeg"
  = Err (Raise "ValueError" "conversion not supported") /\
  lossless_compression Toy.codec img' "jpeg"
  = lossless_compression Toy.codec img "jpeg" /\
  lossless_compression (with_baseline Toy.codec zeros) img "jpeg"
  = lossless_compression Toy.codec img "jpeg".
Proof.
  intros img img' odd zeros.
  destruct (lossless_compression_keeps_optimized_rgb_encode Toy.codec img "jpeg")
    as (H1 & _ & H3 & H4).
  destruct (lossless_compression_keeps_optimized_rgb_encode Toy.codec odd "jpeg")
    as (_ & H2 & _).
  split; [reflexivity|]. split; [exact (H1 _ _ eq_refl)|].
  split; [exact (H2 _ eq_refl)|]. split; [exact (H3 img' eq_refl)|].
  apply H4. intros rgb. unfold same_size, zeros. cbn [save Toy.codec].
  destruct (Toy.save rgb "jpeg" false) as [b|e]; cbn [bind]; trivial.
  unfold len. now rewrite length_map.
Defined.

(** ** One result per input, in input order *)


(** C2: a successful call of [process_images] returns one buffer and one
    number per uploaded file, the ones at position [i] being those computed
    for the file at position [i]; the archive built from them in the same run
    has one entry per file, the entry at position [i] holding the buffer of
    the file at position [i] under the name derived from that file's name,
    as the archive library keeps it (terminated at a null character). *)
Theorem process_images_one_result_per_input_in_order
        (C : Codec) (L : ZipLib) (files : list UploadedFile)
        (imgs : list bytes) (saved : list Z) :
  process_images C files = Ok (imgs, saved) ->
  List.length imgs = List.length files /\
  List.length saved = List.length files /\
  (forall i f,
      nth_error files i = Some f ->
      exists buf s,
        process_image C f = Ok (buf, s) /\
        nth_error imgs i = Some buf /\ nth_error saved i = Some s) /\
  (forall st st' page,
      cached st = None ->
      main C L st files = (st', Ok (Some page)) ->
      List.length (entries (download_data page)) = List.length files /\
      forall i f,
        nth_error files i = Some f ->
        exists buf,
          nth_error imgs i = Some buf /\
          nth_error (entries (download_data page)) i
          = Some (mkZipEntry (ZipInfo_filename (optimized_filename (name f)))
                             buf ZIP_DEFLATED)).
Proof.
  intros H. destruct (process_images_nth C files imgs saved H) as (Hl1 & Hl2 & Hn).
  split; [exact Hl1|]. split; [exact Hl2|]. split; [exact Hn|].
  intros st st' page Hst Hm.
  apply main_fresh_entries in Hm; trivial.
  destruct Hm as (imgs' & saved' & Hp & _ & _ & He).
  rewrite H in Hp. injection Hp as <- <-. split.
  - now rewrite He, length_map, length_combine, length_map, Hl1, Nat.min_id.
  - intros i f Hi.
    destruct (Hn i f Hi) as (buf & s & _ & Hb & _).
    exists buf. split; trivial.
    rewrite He, nth_error_map.
    rewrite (nth_error_combine imgs (map name files) i buf (name f)); trivial.
    rewrite nth_error_map, Hi. reflexivity.
Qed.

Lemma process_images_one_result_per_input_in_order_witness :
  let files := [mkUploadedFile "a.png" Toy.png_pixels;
                mkUploadedFile "b.JPEG" Toy.jpeg_pixels;
                mkUploadedFile ("c" ++ String NUL "d.jpg") Toy.png_pixels] in
  exists imgs saved st' page,
    process_images Toy.codec files = Ok (imgs, saved) /\
    main Toy.codec Toy.ziplib new_session files = (st', Ok (Some page)) /\
    List.length imgs = List.length files /\
    List.length (entries (download_data page)) = List.length files /\
    map entry_name (entries (download_data page))
    = ["a_optimized.png"; "b_optimized.JPEG"; "c"] /\
    map entry_data (entries (download_data page)) = imgs.
Proof.
  intros files.
  eassert (Hp : process_images Toy.codec files = Ok (_, _))
    by (vm_compute; reflexivity).
  eassert (Hm : main Toy.codec Toy.ziplib new_session files
                = (_, Ok (Some _))) by (vm_compute; reflexivity).
  destruct (process_images_one_result_per_input_in_order
              Toy.codec Toy.ziplib files _ _ Hp) as (H1 & _ & _ & H4).
  destruct (H4 new_session _ _ eq_refl Hm) as (H5 & _).
  do 4 eexists. split; [exact Hp|]. split; [exact Hm|].
  split; [exact H1|]. split; [exact H5|]. split; reflexivity.
Defined.

(** ** The format that is encoded *)




(** The contract of [Image.open] is what C5 rests on: the program has no
    branch that takes the extension as the format.  With a codec that opens
    a file named [photo.png] as an image without a format, the access to the
    format raises, although the encode as PNG would succeed. *)
Lemma no_fallback_to_the_extension :
  let f := mkUploadedFile "photo.png" [Byte.x00; Byte.x07] in
  let img := Toy.mkImage None "RGB" [Byte.x07] in
  open_upload Toy.codec f = Ok img /\
  format Toy.codec img = None /\
  last (split "." (name f)) "" = "png" /\
  lossless_compression Toy.codec img "png"
  = Ok ([Byte.x89; Byte.x07; Byte.x00], 0) /\
  process_image Toy.codec f = Err AttributeError /\
  process_images Toy.codec [f] = Err AttributeError.
Proof.
  cbv zeta. repeat (split; [reflexivity|]). reflexivity.
Qed.

(** ** Upper and lower case in the extension *)

Lemma lower_ascii_dot (c : ascii) :
  Ascii.eqb (lower_ascii c) "." = Ascii.eqb c ".".
Proof.
  destruct c as [[] [] [] [] [] [] [] []]; reflexivity.
Qed.

Lemma split_lower (s : string) :
  split "." (lower s) = map lower (split "." s).
Proof.
  induction s as [|c s IH]; simpl; trivial.
  rewrite lower_ascii_dot, IH.
  destruct (Ascii.eqb c "."); simpl; trivial.
  now destruct (split "." s).
Qed.

Lemma last_map_lower (l : list string) :
  last (map lower l) "" = lower (last l "").
Proof.
  induction l as [|x [|y l] IH]; simpl in *; trivial.
Qed.

(** The test that selects how a file is opened looks at the name up to
    case. *)
Lemma extension_test_lower (n : string) :
  lower (last (split "." n) "") = last (split "." (lower n)) "".
Proof.
  now rewrite split_lower, last_map_lower.
Qed.

Lemma open_upload_jpeg_name (C : Codec) (n1 n2 : string) (content : bytes) :
  lower n1 = lower n2 ->
  str_in (lower (last (split "." n1) "")) ["jpg"; "jpeg"] = true ->
  open_upload C (mkUploadedFile n1 content)
  = open_upload C (mkUploadedFile n2 content).
Proof.
  intros Hn H. unfold open_upload. cbn [name getvalue].
  rewrite H. rewrite extension_test_lower, Hn, <- extension_test_lower in H.
  now rewrite H.
Qed.

(** C9: the test on the extension does not see the case of the name, and
    an upload named [photo.JPEG] gives the result of the same bytes named
    [photo.jpeg]: the same buffers and numbers, or the same exception. *)
Theorem jpeg_extension_case_insensitive (C : Codec) :
  (forall n1 n2,
      lower n1 = lower n2 ->
      str_in (lower (last (split "." n1) "")) ["jpg"; "jpeg"]
      = str_in (lower (last (split "." n2) "")) ["jpg"; "jpeg"]) /\
  (forall content,
      process_images C [mkUploadedFile "photo.JPEG" content]
      = process_images C [mkUploadedFile "photo.jpeg" content]).
Proof.
  split.
  - intros n1 n2 H. now rewrite !extension_test_lower, H.
  - reflexivity.
Qed.

Lemma jpeg_extension_case_insensitive_witness :
  lower "photo.JPEG" = lower "photo.jpeg" /\
  str_in (lower (last (split "." "photo.JPEG") "")) ["jpg"; "jpeg"]
  = str_in (lower (last (split "." "photo.jpeg") "")) ["jpg"; "jpeg"] /\
  process_images Toy.codec [mkUploadedFile "photo.JPEG" Toy.jpeg_pixels]
  = process_images Toy.codec [mkUploadedFile "photo.jpeg" Toy.jpeg_pixels].
Proof.
  split; [reflexivity|]. split.
  - apply (proj1 (jpeg_extension_case_insensitive Toy.codec)). reflexivity.
  - apply (proj2 (jpeg_extension_case_insensitive Toy.codec)).
Defined.

(** ** A file that cannot be decoded *)

Section DecodeFailure.

Variable C : Codec.

Lemma process_image_open_Err (f : UploadedFile) (e : exn) :
  open_upload C f = Err e -> process_image C f = Err e.
Proof.
  intros H. unfold process_image. now rewrite H.
Qed.

Lemma all_processed_Forall2 (pre : list UploadedFile) :
  all_processed C pre ->
  exists rs, Forall2 (fun f r => process_image C f = Ok r) pre rs.
Proof.
  induction 1 as [|g pre [r Hr] _ [rs IH]].
  - exists []. constructor.
  - exists (r :: rs). now constructor.
Qed.

Lemma process_images_first_failure (pre post : list UploadedFile)
      (f : UploadedFile) (e : exn) :
  all_processed C pre ->
  process_image C f = Err e ->
  process_images C (pre ++ f :: post) = Err e.
Proof.
  intros Hpre Hf. apply all_processed_Forall2 in Hpre. destruct Hpre as [rs Hrs].
  apply process_images_loop_Err. exists pre, f, post, rs. auto.
Qed.

Lemma process_images_loop_any_failure (files : list UploadedFile)
      (f : UploadedFile) (e : exn) :
  In f files -> process_image C f = Err e ->
  forall acc1 acc2, exists e', process_images_loop C files acc1 acc2 = Err e'.
Proof.
  induction files as [|g files IH]; simpl; intros Hin Hf acc1 acc2; [easy|].
  destruct (process_image C g) as [[buf s]|e'] eqn:Hg; simpl; [|eauto].
  destruct Hin as [->|Hin]; [congruence|]. now apply IH.
Qed.

Lemma process_image_decode_Err (f : UploadedFile) (e : exn) :
  decode_fails C f e -> process_image C f = Err e.
Proof.
  intros [H|(img & reported & H & Hf & Hc)].
  - now apply process_image_open_Err.
  - unfold process_image, format_lower, lossless_compression.
    rewrite H. cbn [bind]. rewrite Hf. cbn [bind]. now rewrite Hc.
Qed.

Lemma process_images_Err_first (files : list UploadedFile) (e : exn) :
  process_images C files = Err e ->
  exists pre g post,
    files = (pre ++ g :: post)%list /\
    all_processed C pre /\ process_image C g = Err e.
Proof.
  intros H. apply process_images_loop_Err in H.
  destruct H as (pre & g & post & rs & Heq & Hrs & Hg).
  exists pre, g, post. split; [exact Heq|]. split; [|exact Hg].
  clear - Hrs. induction Hrs; constructor; eauto.
Qed.

Lemma open_upload_jpeg (n : string) (content : bytes) :
  str_in (lower (last (split "." n) "")) ["jpg"; "jpeg"] = true ->
  open_upload C (mkUploadedFile n content) = Image_open C (BytesIO content).
Proof.
  intros H. unfold open_upload. cbn [name getvalue]. now rewrite H.
Qed.

End DecodeFailure.

(** C4 as amended: if a file of the batch cannot be decoded, in
    [Image.open] or when [convert('RGB')] loads its data, the call of
    [process_images] raises and returns no results, and a run that had
    nothing cached renders nothing and caches nothing; the exception is the
    one that the first file that cannot be processed raised, unchanged, and
    it is the decoder's own when the file that cannot be decoded is the
    first to fail; for a name with the extension jpg or jpeg the decoder is
    given the bytes without the name. *)
Theorem decode_failure_fails_the_batch (C : Codec) (L : ZipLib) :
  (forall files f e,
      In f files -> decode_fails C f e ->
      exists pre g post e',
        files = (pre ++ g :: post)%list /\
        all_processed C pre /\
        process_image C g = Err e' /\
        process_images C files = Err e' /\
        forall st, cached st = None ->
                   main C L st files = (mkSessionState (Some None), Err e')) /\
  (forall pre f post e,
      all_processed C pre -> decode_fails C f e ->
      process_images C (pre ++ f :: post) = Err e /\
      forall st, cached st = None ->
                 main C L st (pre ++ f :: post)
                 = (mkSessionState (Some None), Err e)) /\
  (forall n content,
      str_in (lower (last (split "." n) "")) ["jpg"; "jpeg"] = true ->
      open_upload C (mkUploadedFile n content) = Image_open C (BytesIO content)).
Proof.
  assert (Hmain : forall files e,
             process_images C files = Err e ->
             forall st, cached st = None ->
                        main C L st files = (mkSessionState (Some None), Err e)).
  { intros files e He st Hst. destruct files as [|g files]; [discriminate|].
    rewrite (main_not_cached C L st g files Hst). now rewrite He. }
  split; [|split].
  - intros files f e Hin Hf. apply process_image_decode_Err in Hf.
    destruct (process_images_loop_any_failure C files f e Hin Hf [] [])
      as [e' He'].
    destruct (process_images_Err_first C files e' He')
      as (pre & g & post & Heq & Hpre & Hg).
    exists pre, g, post, e'. repeat (split; [assumption|]).
    now apply Hmain.
  - intros pre f post e Hpre Hf.
    assert (He : process_images C (pre ++ f :: post) = Err e).
    { apply process_images_first_failure; trivial.
      now apply process_image_decode_Err. }
    split; [exact He | now apply Hmain].
  - intros n content. apply open_upload_jpeg.
Qed.

Lemma decode_failure_fails_the_batch_witness :
  let good := mkUploadedFile "a.png" Toy.png_pixels in
  let cut := mkUploadedFile "b.jpg" Toy.truncated in
  let bad := mkUploadedFile "c.jpg" Toy.corrupt in
  let e := Raise "ValueError" "conversion not supported" in
  In bad [good; cut; bad] /\
  decode_fails Toy.codec bad
    (Toy.UnidentifiedImageError (BytesIO Toy.corrupt)) /\
  all_processed Toy.codec [good] /\
  decode_fails Toy.codec cut e /\
  process_images Toy.codec ([good] ++ cut :: [bad]) = Err e /\
  main Toy.codec Toy.ziplib new_session ([good] ++ cut :: [bad])
  = (mkSessionState (Some None), Err e) /\
  (exists pre g post e',
      [good; cut; bad] = (pre ++ g :: post)%list /\
      all_processed Toy.codec pre /\
      process_image Toy.codec g = Err e' /\
      process_images Toy.codec [good; cut; bad] = Err e') /\
  open_upload Toy.codec bad = Image_open Toy.codec (BytesIO Toy.corrupt).
Proof.
  intros good cut bad e.
  assert (Hin : In bad [good; cut; bad]) by (right; right; left; reflexivity).
  assert (Hbad : decode_fails Toy.codec bad
                   (Toy.UnidentifiedImageError (BytesIO Toy.corrupt)))
    by (left; reflexivity).
  assert (Hpre : all_processed Toy.codec [good]).
  { constructor; [|constructor]. eexists. reflexivity. }
  assert (Hcut : decode_fails Toy.codec cut e).
  { right. do 2 eexists. repeat split; reflexivity. }
  destruct (decode_failure_fails_the_batch Toy.codec Toy.ziplib)
    as (H1 & H2 & H3).
  destruct (H2 [good] cut [bad] e Hpre Hcut) as [Hp Hm].
  destruct (H1 [good; cut; bad] bad _ Hin Hbad)
    as (pre & g & post & e' & Heq & Hpre' & Hg & He' & _).
  split; [exact Hin|]. split; [exact Hbad|]. split; [exact Hpre|].
  split; [exact Hcut|]. split; [exact Hp|].
  split; [exact (Hm new_session eq_refl)|]. split.
  - exists pre, g, post, e'. auto.
  - exact (H3 "c.jpg" Toy.corrupt eq_refl).
Defined.

(** Whatever the codec, bytes that it cannot decode end the batch with one
    exception under every name with the extension jpg. *)
Lemma undecodable_jpeg_is_anonymous (C : Codec) (content : bytes) (e : exn) :
  Image_open C (BytesIO content) = Err e ->
  ~ exists name_of, names_offending_file C name_of.
Proof.
  intros He [name_of H].
  destruct (H [] (mkUploadedFile "a.jpg" content) [] e (Forall_nil _) He)
    as (ea & Ha & Hna).
  destruct (H [] (mkUploadedFile "b.jpg" content) [] e (Forall_nil _) He)
    as (eb & Hb & Hnb).
  assert (Hp : forall n,
             str_in (lower (last (split "." n) "")) ["jpg"; "jpeg"] = true ->
             process_images C [mkUploadedFile n content] = Err e).
  { intros n Hn. unfold process_images. cbn [process_images_loop].
    unfold process_image. now rewrite (open_upload_jpeg C n content Hn), He. }
  cbn [app] in Ha, Hb. rewrite Hp in Ha, Hb by reflexivity.
  injection Ha as <-. injection Hb as <-.
  cbn [name] in Hna, Hnb. rewrite Hna in Hnb. discriminate.
Qed.

(** C4 as stated fails: the same undecodable bytes uploaded as [a.jpg] and
    as [b.jpg] end the batch with the same exception, so no reading of the
    exception yields the name of the offending file. *)
Lemma decode_error_does_not_name_the_file :
  process_images Toy.codec [mkUploadedFile "a.jpg" Toy.corrupt]
  = process_images Toy.codec [mkUploadedFile "b.jpg" Toy.corrupt] /\
  ~ exists name_of, names_offending_file Toy.codec name_of.
Proof.
  split; [reflexivity|].
  apply (undecodable_jpeg_is_anonymous Toy.codec Toy.corrupt
           (Toy.UnidentifiedImageError (BytesIO Toy.corrupt))).
  reflexivity.
Qed.

(** ** Names of archive entries *)

Section StringFacts.

Lemma split_not_nil (sep : ascii) (s : string) : split sep s <> [].
Proof.
  destruct s as [|c s]; simpl; [discriminate|].
  destruct (Ascii.eqb c sep); [discriminate|].
  destruct (split sep s); discriminate.
Qed.

Lemma length_app (s1 s2 : string) :
  String.length (s1 ++ s2) = (String.length s1 + String.length s2)%nat.
Proof.
  induction s1 as [|c s1 IH]; simpl; auto.
Qed.

Lemma append_assoc (s1 s2 s3 : string) : (s1 ++ s2) ++ s3 = s1 ++ s2 ++ s3.
Proof.
  induction s1 as [|c s1 IH]; simpl; congruence.
Qed.

Lemma substring_all (s : string) : substring 0 (String.length s) s = s.
Proof.
  induction s as [|c s IH]; simpl; congruence.
Qed.

Lemma substring_prefix (s1 s2 : string) :
  substring 0 (String.length s1) (s1 ++ s2) = s1.
Proof.
  induction s1 as [|c s1 IH]; simpl.
  - now destruct s2.
  - now rewrite IH.
Qed.

Lemma substring_suffix (s1 s2 : string) (m : nat) :
  substring (String.length s1) m (s1 ++ s2) = substring 0 m s2.
Proof.
  induction s1 as [|c s1 IH]; simpl; auto.
Qed.

Lemma rfind_from_app (c : ascii) (s1 s2 : string) :
  forall i found,
    rfind_from c (s1 ++ s2) i found
    = rfind_from c s2 (i + Z.of_nat (String.length s1))
                 (rfind_from c s1 i found).
Proof.
  induction s1 as [|d s1 IH]; intros i found.
  - simpl. now rewrite Z.add_0_r.
  - cbn [append rfind_from String.length]. rewrite IH. f_equal. lia.
Qed.

Lemma rfind_from_absent (c : ascii) (s : string) :
  occurs c s = false -> forall i found, rfind_from c s i found = found.
Proof.
  induction s as [|d s IH]; simpl; intros H i found; trivial.
  apply orb_false_iff in H. destruct H as [Hd Hs].
  now rewrite Hd, IH.
Qed.

Lemma rfind_from_bound (c : ascii) (s : string) :
  forall i found,
    found < i ->
    found <= rfind_from c s i found < i + Z.of_nat (String.length s).
Proof.
  induction s as [|d s IH]; intros i found H.
  - simpl. lia.
  - cbn [rfind_from String.length].
    destruct (Ascii.eqb d c).
    + specialize (IH (i + 1) i). lia.
    + specialize (IH (i + 1) found). lia.
Qed.

Lemma get_app_length (s1 s2 : string) (c : ascii) :
  get (String.length s1) (s1 ++ String c s2) = Some c.
Proof.
  induction s1 as [|d s1 IH]; simpl; auto.
Qed.

Lemma non_dot_before_found (p : string) (c : ascii) :
  forall count start k,
    (start <= k < start + count)%nat ->
    get k p = Some c -> Ascii.eqb c "." = false ->
    non_dot_before p start count = true.
Proof.
  induction count as [|count IH]; intros start k Hk Hg Hc; [lia|].
  simpl. destruct (get start p) as [d|] eqn:Hd; trivial.
  destruct (Ascii.eqb d ".") eqn:Hdot; trivial.
  apply (IH (S start) k); trivial.
  assert (k <> start) by congruence. lia.
Qed.

(** [os.path.splitext] cuts at the last dot when the final path component
    has something other than dots before it. *)
Lemma splitext_last_dot (base ext : string) :
  occurs "." ext = false -> occurs "/" ext = false -> has_stem base ->
  splitext (base ++ "." ++ ext) = (base, "." ++ ext).
Proof.
  intros Hdot Hsep (pre & c & post & -> & Hc & Hpost).
  set (base := pre ++ String c post).
  assert (Hd : rfind "." (base ++ "." ++ ext) = Z.of_nat (String.length base)).
  { unfold rfind. rewrite rfind_from_app. cbn [append rfind_from].
    cbn [Ascii.eqb Bool.eqb]. now rewrite rfind_from_absent. }
  assert (Hs : rfind "/" (base ++ "." ++ ext) = rfind "/" pre).
  { unfold rfind. rewrite rfind_from_app.
    rewrite (rfind_from_absent "/" ("." ++ ext)) by exact Hsep.
    unfold base. rewrite rfind_from_app.
    now rewrite (rfind_from_absent "/" (String c post)). }
  assert (Hb : -1 <= rfind "/" pre < Z.of_nat (String.length pre)).
  { unfold rfind. pose proof (rfind_from_bound "/" pre 0 (-1)). lia. }
  assert (Hl : String.length base
               = (String.length pre + S (String.length post))%nat).
  { unfold base. now rewrite length_app. }
  unfold splitext. rewrite Hd, Hs.
  replace (Z.of_nat (String.length base) >? rfind "/" pre) with true
    by (symmetry; apply Z.gtb_lt; lia).
  rewrite (non_dot_before_found _ c _ _ (String.length pre)).
  - cbn [andb]. unfold slice_to, slice_from. rewrite Nat2Z.id.
    rewrite substring_prefix, substring_suffix, length_app.
    replace (String.length base + String.length ("." ++ ext)
             - String.length base)%nat
      with (String.length ("." ++ ext)) by lia.
    now rewrite substring_all.
  - lia.
  - unfold base. rewrite append_assoc. apply get_app_length.
  - exact Hc.
Qed.

Lemma optimized_filename_last_dot (base ext : string) :
  occurs "." ext = false -> occurs "/" ext = false -> has_stem base ->
  optimized_filename (base ++ "." ++ ext) = base ++ "_optimized." ++ ext.
Proof.
  intros Hdot Hsep Hb. unfold optimized_filename.
  rewrite splitext_last_dot by assumption.
  unfold slice_from. change (Z.to_nat 1) with 1%nat.
  cbn [append String.length substring Nat.sub].
  now rewrite Nat.sub_0_r, substring_all.
Qed.

(** Otherwise the whole name is the root and the extension is empty. *)
Lemma optimized_filename_no_extension (n : string) :
  snd (splitext n) = "" -> optimized_filename n = fst (splitext n) ++ "_optimized.".
Proof.
  unfold optimized_filename. destruct (splitext n) as [root e]. simpl.
  now intros ->.
Qed.

End StringFacts.

Lemma rfind_last_dot (base ext : string) :
  occurs "." ext = false ->
  rfind "." (base ++ "." ++ ext) = Z.of_nat (String.length base).
Proof.
  intros H. unfold rfind. rewrite rfind_from_app. cbn [append rfind_from].
  cbn [Ascii.eqb Bool.eqb]. now rewrite rfind_from_absent.
Qed.

Lemma optimized_name_by_last_dot_spec (base ext : string) :
  occurs "." ext = false ->
  optimized_name_by_last_dot (base ++ "." ++ ext) = base ++ "_optimized." ++ ext.
Proof.
  intros H. unfold optimized_name_by_last_dot, cut_at_last_dot.
  rewrite rfind_last_dot by exact H. unfold slice_to, slice_from.
  rewrite Nat2Z.id, substring_prefix.
  replace (Z.to_nat (Z.of_nat (String.length base) + 1))
    with (String.length (base ++ ".")) by (rewrite length_app; simpl; lia).
  rewrite <- (append_assoc base "." ext), substring_suffix.
  rewrite (length_app (base ++ ".") ext).
  replace (String.length (base ++ ".") + String.length ext
           - String.length (base ++ "."))%nat
    with (String.length ext) by lia.
  now rewrite substring_all.
Qed.

Section EntryNames.

Lemma occurs_last (c : ascii) (s : string) :
  occurs c s = true ->
  exists pre post, s = pre ++ String c post /\ occurs c post = false.
Proof.
  induction s as [|d s IH]; cbn [occurs]; [discriminate|].
  destruct (occurs c s) eqn:Hs.
  - intros _. destruct (IH eq_refl) as (pre & post & -> & Hpost).
    exists (String d pre), post. split; [reflexivity | exact Hpost].
  - rewrite orb_false_r. intros Hd. apply Ascii.eqb_eq in Hd. subst d.
    exists "", s. split; [reflexivity | exact Hs].
Qed.

Lemma rfind_last (c : ascii) (pre post : string) :
  occurs c post = false ->
  rfind c (pre ++ String c post) = Z.of_nat (String.length pre).
Proof.
  intros Hpost. unfold rfind. rewrite rfind_from_app. cbn [rfind_from].
  rewrite Ascii.eqb_refl. now rewrite rfind_from_absent.
Qed.

Lemma rfind_absent (c : ascii) (s : string) :
  occurs c s = false -> rfind c s = -1.
Proof.
  intros H. unfold rfind. now rewrite rfind_from_absent.
Qed.

(** The last occurrence of [c], when there is one. *)
Lemma rfind_cases (c : ascii) (s : string) :
  (occurs c s = false /\ rfind c s = -1) \/
  exists pre post,
    s = pre ++ String c post /\ occurs c post = false /\
    rfind c s = Z.of_nat (String.length pre).
Proof.
  destruct (occurs c s) eqn:Hs.
  - right. destruct (occurs_last c s Hs) as (pre & post & -> & Hpost).
    exists pre, post. split; [reflexivity|]. split; [exact Hpost|].
    now apply rfind_last.
  - left. split; [reflexivity | now apply rfind_absent].
Qed.

Lemma slice_to_prefix (s1 s2 : string) :
  slice_to (s1 ++ s2) (Z.of_nat (String.length s1)) = s1.
Proof.
  unfold slice_to. rewrite Nat2Z.id. apply substring_prefix.
Qed.

Lemma slice_from_suffix (s1 s2 : string) :
  slice_from (s1 ++ s2) (Z.of_nat (String.length s1)) = s2.
Proof.
  unfold slice_from. rewrite Nat2Z.id, length_app, substring_suffix.
  replace (String.length s1 + String.length s2 - String.length s1)%nat
    with (String.length s2) by lia.
  apply substring_all.
Qed.

(** [os.path.splitext] cuts at the last dot or not at all. *)
Lemma splitext_cases (p : string) :
  splitext p = (p, "") \/
  exists root e,
    p = root ++ "." ++ e /\ occurs "." e = false /\ occurs "/" e = false /\
    splitext p = (root, "." ++ e).
Proof.
  unfold splitext.
  destruct ((rfind "." p >? rfind "/" p)
            && non_dot_before p (Z.to_nat (rfind "/" p + 1))
                 (Z.to_nat (rfind "." p - (rfind "/" p + 1)))) eqn:Hc;
    [|left; reflexivity].
  right. apply andb_true_iff in Hc. destruct Hc as [Hgt _].
  apply Z.gtb_lt in Hgt.
  assert (Hsep : -1 <= rfind "/" p).
  { unfold rfind. apply (rfind_from_bound "/" p 0 (-1)). lia. }
  destruct (rfind_cases "." p) as [[_ Hd]|(root & e & Hp & He & Hd)]; [lia|].
  exists root, e. split; [exact Hp|]. split; [exact He|].
  rewrite Hd in *. subst p. split.
  - destruct (occurs "/" e) eqn:Hs; [|reflexivity].
    destruct (occurs_last "/" e Hs) as (pre & post & -> & Hpost).
    change (root ++ "." ++ pre ++ String "/" post)
      with (root ++ String "." (pre ++ String "/" post)) in Hgt.
    replace (root ++ String "." (pre ++ String "/" post))
      with ((root ++ String "." pre) ++ String "/" post) in Hgt
      by (now rewrite append_assoc).
    rewrite (rfind_last "/" _ post Hpost), length_app in Hgt.
    cbn [String.length] in Hgt. lia.
  - now rewrite slice_to_prefix, slice_from_suffix.
Qed.

Lemma occurs_app (c : ascii) (s1 s2 : string) :
  occurs c (s1 ++ s2) = occurs c s1 || occurs c s2.
Proof.
  induction s1 as [|d s1 IH]; cbn [append occurs]; [reflexivity|].
  now rewrite IH, orb_assoc.
Qed.

Lemma split_at (s : string) :
  forall k, (k < String.length s)%nat ->
            exists pre c post,
              s = pre ++ String c post /\ String.length pre = k.
Proof.
  induction s as [|d s IH]; intros k Hk; cbn [String.length] in Hk; [lia|].
  destruct k as [|k].
  - exists "", d, s. auto.
  - destruct (IH k) as (pre & c & post & -> & Hl); [lia|].
    exists (String d pre), c, post. cbn [append String.length]. auto.
Qed.

Lemma get_in_range (s : string) :
  forall k, (k < String.length s)%nat -> exists c, get k s = Some c.
Proof.
  induction s as [|d s IH]; intros k Hk; cbn [String.length] in Hk; [lia|].
  destruct k as [|k]; cbn [get]; [eauto|]. apply IH. lia.
Qed.

Lemma non_dot_before_true (p : string) :
  forall count start,
    non_dot_before p start count = true ->
    (start + count <= String.length p)%nat ->
    exists k c,
      (start <= k < start + count)%nat /\
      get k p = Some c /\ Ascii.eqb c "." = false.
Proof.
  induction count as [|count IH]; intros start H Hl;
    cbn [non_dot_before] in H; [discriminate|].
  destruct (get_in_range p start) as [c Hc]; [lia|]. rewrite Hc in H.
  destruct (Ascii.eqb c ".") eqn:Hd.
  - destruct (IH (S start) H) as (k & c' & Hk & Hg & Hn); [lia|].
    exists k, c'. split; [lia | auto].
  - exists start, c. split; [lia | auto].
Qed.

(** When [os.path.splitext] cuts, the root has a character other than the
    dot in the final path component. *)
Lemma splitext_cut_stem (p root e : string) :
  p = root ++ "." ++ e ->
  occurs "/" e = false ->
  rfind "." p = Z.of_nat (String.length root) ->
  non_dot_before p (Z.to_nat (rfind "/" p + 1))
                 (Z.to_nat (rfind "." p - (rfind "/" p + 1))) = true ->
  rfind "." p > rfind "/" p ->
  has_stem root.
Proof.
  intros Hp He Hd Hn Hgt.
  assert (Hsep : -1 <= rfind "/" p).
  { unfold rfind. apply (rfind_from_bound "/" p 0 (-1)). lia. }
  assert (Hlen : String.length p
                 = (String.length root + S (String.length e))%nat).
  { rewrite Hp, length_app. reflexivity. }
  destruct (non_dot_before_true p _ _ Hn) as (k & c & Hk & Hg & Hc).
  { rewrite Hd. lia. }
  rewrite Hd in Hk.
  destruct (split_at root k) as (pre & c' & post & Hroot & Hpre); [lia|].
  assert (Hc' : c' = c).
  { rewrite Hp, Hroot, append_assoc in Hg. cbn [append] in Hg.
    rewrite <- Hpre, get_app_length in Hg. congruence. }
  subst c'. exists pre, c, post. split; [exact Hroot|]. split; [exact Hc|].
  destruct (occurs "/" (String c post)) eqn:Hs; [|reflexivity].
  destruct (occurs_last "/" _ Hs) as (b1 & b2 & Hb & Hb2).
  assert (Hp' : p = (pre ++ b1) ++ String "/" (b2 ++ "." ++ e)).
  { rewrite Hp, Hroot, Hb, !append_assoc. reflexivity. }
  assert (Hr : rfind "/" p = Z.of_nat (String.length (pre ++ b1))).
  { rewrite Hp'. apply rfind_last. rewrite occurs_app, Hb2.
    cbn [append occurs orb]. rewrite He. reflexivity. }
  rewrite length_app in Hr. lia.
Qed.

(** The name of an entry, for every name: [os.path.splitext] cuts exactly
    the names that have a last dot after a stem. *)
Lemma optimized_filename_by_stem (n : string) :
  (exists base ext,
      n = base ++ "." ++ ext /\
      occurs "." ext = false /\ occurs "/" ext = false /\ has_stem base /\
      optimized_filename n = base ++ "_optimized." ++ ext) \/
  ((forall base ext,
       n = base ++ "." ++ ext ->
       occurs "." ext = false -> occurs "/" ext = false -> ~ has_stem base) /\
   optimized_filename n = n ++ "_optimized.").
Proof.
  unfold optimized_filename, splitext.
  destruct ((rfind "." n >? rfind "/" n)
            && non_dot_before n (Z.to_nat (rfind "/" n + 1))
                 (Z.to_nat (rfind "." n - (rfind "/" n + 1)))) eqn:Hc.
  - left. apply andb_true_iff in Hc. destruct Hc as [Hgt Hn].
    apply Z.gtb_lt in Hgt.
    destruct (splitext_cases n) as [H|(root & e & Hp & Hd & Hs & H)].
    + exfalso. unfold splitext in H.
      rewrite (proj2 (andb_true_iff _ _) (conj (proj2 (Z.gtb_lt _ _) Hgt) Hn))
        in H.
      injection H as _ H.
      assert (Hsep : -1 <= rfind "/" n).
      { unfold rfind. apply (rfind_from_bound "/" n 0 (-1)). lia. }
      destruct (rfind_cases "." n) as [[_ Hr]|(pre & post & Hn' & _ & Hr)];
        [lia|].
      rewrite Hr, Hn' in H. rewrite slice_from_suffix in H. discriminate.
    + exists root, e. repeat (split; [assumption|]).
      assert (Hr : rfind "." n = Z.of_nat (String.length root))
        by (rewrite Hp; now apply rfind_last_dot).
      split.
      * apply (splitext_cut_stem n root e); trivial. lia.
      * rewrite Hr, Hp, slice_to_prefix, slice_from_suffix.
        change (slice_from ("." ++ e) 1)
          with (slice_from ("." ++ e) (Z.of_nat (String.length "."))).
        now rewrite (slice_from_suffix "." e).
  - right. split; [|reflexivity].
    intros base ext Hp Hd Hs Hstem.
    pose proof (splitext_last_dot base ext Hd Hs Hstem) as H.
    rewrite <- Hp in H. unfold splitext in H. rewrite Hc in H.
    injection H as _ H. discriminate.
Qed.

Lemma find_from_absent (c : ascii) (s : string) :
  occurs c s = false -> forall i, find_from c s i = -1.
Proof.
  induction s as [|d s IH]; cbn [occurs find_from]; intros H i; [reflexivity|].
  apply orb_false_iff in H. destruct H as [Hd Hs]. rewrite Hd. now apply IH.
Qed.

(** A name without a null character is kept as it is. *)
Lemma ZipInfo_filename_id (s : string) :
  occurs NUL s = false -> ZipInfo_filename s = s.
Proof.
  intros H. unfold ZipInfo_filename, find.
  now rewrite (find_from_absent NUL s H).
Qed.

Lemma optimized_filename_NUL (n : string) :
  occurs NUL n = false -> occurs NUL (optimized_filename n) = false.
Proof.
  intros Hn.
  destruct (optimized_filename_by_stem n)
    as [(base & ext & Hp & _ & _ & _ & ->)|[_ ->]].
  - rewrite Hp, !occurs_app in Hn. rewrite !occurs_app.
    apply orb_false_iff in Hn. destruct Hn as [-> Hn].
    apply orb_false_iff in Hn. destruct Hn as [_ ->]. reflexivity.
  - rewrite occurs_app, Hn. reflexivity.
Qed.

(** The text after the last dot of an entry name that was cut. *)
Lemma cut_at_last_dot_optimized (base ext : string) :
  occurs "." ext = false ->
  cut_at_last_dot (base ++ "_optimized." ++ ext)
  = (base ++ "_optimized", ext).
Proof.
  intros Hd. unfold cut_at_last_dot.
  replace (base ++ "_optimized." ++ ext)
    with ((base ++ "_optimized") ++ "." ++ ext)
    by (now rewrite !append_assoc).
  rewrite (rfind_last_dot _ ext Hd), slice_to_prefix. f_equal.
  replace ((base ++ "_optimized") ++ "." ++ ext)
    with (((base ++ "_optimized") ++ ".") ++ ext)
    by (now rewrite !append_assoc).
  replace (Z.of_nat (String.length (base ++ "_optimized")) + 1)
    with (Z.of_nat (String.length ((base ++ "_optimized") ++ ".")))
    by (rewrite (length_app _ "."); cbn [String.length]; lia).
  apply slice_from_suffix.
Qed.

End EntryNames.

Section ArchiveFacts.

Variable C : Codec.
Variable L : ZipLib.

Lemma main_Ok_render (st st' : SessionState) (files : list UploadedFile)
      (page : Page) :
  main C L st files = (st', Ok (Some page)) ->
  exists d, cached st' = Some d /\ render L d = Ok (Some page).
Proof.
  intros H. destruct files as [|f files].
  - unfold main in H. destruct (processed_images st); discriminate.
  - destruct (cached st) as [d|] eqn:Hst.
    + rewrite (main_cached C L st d f files Hst) in H.
      injection H as <- H. exists d. split; [reflexivity | exact H].
    + rewrite (main_not_cached C L st f files Hst) in H.
      destruct (process_images C (f :: files)) as [[imgs saved]|e];
        [|discriminate].
      cbv zeta in H. injection H as <- H.
      eexists. split; [reflexivity | exact H].
Qed.

Lemma render_entry (d : Processed) (page : Page) (i : nat) (buf : bytes) :
  render L d = Ok (Some page) ->
  nth_error (compressed_images d) i = Some buf ->
  exists n,
    nth_error (original_filenames d) i = Some n /\
    nth_error (entries (download_data page)) i
    = Some (mkZipEntry (ZipInfo_filename (optimized_filename n)) buf
                       ZIP_DEFLATED).
Proof.
  intros H Hi. apply render_Ok in H. destruct H as (_ & Hl & He).
  destruct (nth_error (original_filenames d) i) as [n|] eqn:Hn.
  - exists n. split; trivial.
    rewrite He, nth_error_map, (nth_error_combine _ _ _ _ _ Hi Hn).
    reflexivity.
  - apply nth_error_None in Hn.
    assert (i < List.length (compressed_images d))%nat
      by (apply nth_error_Some; congruence).
    lia.
Qed.

End ArchiveFacts.

(** C6 as amended: a run that renders a page builds one archive, opened
    with the deflate method, with one entry per cached result, in order; the
    entry of the result at position [i] holds its buffer, is written with
    the deflate method and is named by [os.path.splitext] of the file name
    cached at position [i], terminated at a null character if there is one.
    For every name, [os.path.splitext] gives [base_optimized.ext], cut at
    the last dot, when that dot follows a character other than a dot in the
    final path component, and the whole name followed by [_optimized.]
    otherwise. *)
Theorem archive_entries_named_by_splitext
        (C : Codec) (L : ZipLib) (st st' : SessionState)
        (files : list UploadedFile) (page : Page) :
  main C L st files = (st', Ok (Some page)) ->
  exists d,
    cached st' = Some d /\
    compression (download_data page) = ZIP_DEFLATED /\
    List.length (entries (download_data page))
    = List.length (compressed_images d) /\
    forall i buf,
      nth_error (compressed_images d) i = Some buf ->
      exists n,
        nth_error (original_filenames d) i = Some n /\
        nth_error (entries (download_data page)) i
        = Some (mkZipEntry (ZipInfo_filename (optimized_filename n)) buf
                           ZIP_DEFLATED) /\
        (occurs NUL n = false ->
         ZipInfo_filename (optimized_filename n) = optimized_filename n) /\
        ((exists base ext,
             n = base ++ "." ++ ext /\
             occurs "." ext = false /\ occurs "/" ext = false /\
             has_stem base /\
             optimized_filename n = base ++ "_optimized." ++ ext /\
             optimized_filename n = optimized_name_by_last_dot n) \/
         ((forall base ext,
              n = base ++ "." ++ ext ->
              occurs "." ext = false -> occurs "/" ext = false ->
              ~ has_stem base) /\
          optimized_filename n = n ++ "_optimized.")).
Proof.
  intros H. apply main_Ok_render in H. destruct H as (d & Hd & Hr).
  exists d. split; [exact Hd|].
  destruct (render_Ok L d page Hr) as (Hc & Hl & He).
  split; [exact Hc|]. split.
  - rewrite He, length_map, length_combine. lia.
  - intros i buf Hi. destruct (render_entry L d page i buf Hr Hi) as (n & Hn & Hent).
    exists n. split; [exact Hn|]. split; [exact Hent|]. split.
    + intros H0. now apply ZipInfo_filename_id, optimized_filename_NUL.
    + destruct (optimized_filename_by_stem n)
        as [(base & ext & Hp & Hdot & Hsep & Hstem & Ho)|Hno].
      * left. exists base, ext. repeat (split; [assumption|]).
        rewrite Ho, Hp. symmetry.
        now apply optimized_name_by_last_dot_spec.
      * right. exact Hno.
Qed.

Lemma archive_entries_named_by_splitext_witness :
  let files := [mkUploadedFile "holiday.photo.png" Toy.png_pixels;
                mkUploadedFile "..png" Toy.png_pixels;
                mkUploadedFile ("x" ++ String NUL ".png") Toy.png_pixels] in
  exists st' page d,
    main Toy.codec Toy.ziplib new_session files = (st', Ok (Some page)) /\
    cached st' = Some d /\
    map entry_name (entries (download_data page))
    = ["holiday.photo_optimized.png"; "..png_optimized."; "x"] /\
    map entry_method (entries (download_data page))
    = [ZIP_DEFLATED; ZIP_DEFLATED; ZIP_DEFLATED] /\
    (exists n,
        nth_error (original_filenames d) 0 = Some n /\
        ZipInfo_filename (optimized_filename n)
        = "holiday.photo_optimized.png").
Proof.
  intros files.
  eassert (Hm : main Toy.codec Toy.ziplib new_session files = (_, Ok (Some _)))
    by (vm_compute; reflexivity).
  destruct (archive_entries_named_by_splitext _ _ _ _ _ _ Hm)
    as (d & Hd & Hc & Hl & Hn).
  destruct (Hn 0%nat [Byte.x89; Byte.x01; Byte.x02; Byte.x03; Byte.x00])
    as (n & Hn0 & He & _).
  { vm_compute in Hd. injection Hd as <-. reflexivity. }
  eexists _, _, d. split; [exact Hm|]. split; [exact Hd|].
  split; [reflexivity|]. split; [reflexivity|].
  exists n. split; [exact Hn0|].
  cbn [download_data entries nth_error] in He. injection He as He.
  symmetry. exact He.
Defined.

(** C6 as stated fails on a name that is only an extension: for [.png] the
    program writes the entry [.png_optimized.] where a cut at the last dot
    gives [_optimized.png]. *)
Lemma archive_entry_of_dot_png :
  optimized_filename ".png" = ".png_optimized." /\
  optimized_name_by_last_dot ".png" = "_optimized.png" /\
  map entry_name
      (match snd (main Toy.codec Toy.ziplib new_session
                       [mkUploadedFile ".png" Toy.png_pixels]) with
       | Ok (Some page) => entries (download_data page)
       | _ => []
       end)
  = [".png_optimized."].
Proof.
  repeat (split; [reflexivity|]). reflexivity.
Qed.

(** ** Extension of the entry and format of its bytes *)

Section SessionFacts.

Variable C : Codec.
Variable L : ZipLib.

Lemma main_keeps_history (st : SessionState) (uploads : list UploadedFile)
      (history : list (list UploadedFile)) :
  cache_from_history C st history ->
  cache_from_history C (fst (main C L st uploads)) (history ++ [uploads]).
Proof.
  intros Hst d Hd. destruct uploads as [|f files].
  - assert (Hc : cached (fst (main C L st [])) = cached st).
    { unfold main, cached. now destruct st as [[[d'|]|]]. }
    rewrite Hc in Hd. destruct (Hst d Hd) as (files & Hin & Hp).
    exists files. split; [apply in_or_app; auto | exact Hp].
  - destruct (cached st) as [d0|] eqn:Hc.
    + rewrite (main_cached C L st d0 f files Hc) in Hd.
      cbn in Hd. injection Hd as <-.
      destruct (Hst d0 Hc) as (files0 & Hin & Hp).
      exists files0. split; [apply in_or_app; auto | exact Hp].
    + rewrite (main_not_cached C L st f files Hc) in Hd.
      destruct (process_images C (f :: files)) as [[imgs saved]|e] eqn:Hp;
        cbn in Hd; [|discriminate].
      injection Hd as <-. exists (f :: files).
      split; [apply in_or_app; right; left; reflexivity|].
      split; [exact Hp | reflexivity].
Qed.

Lemma run_session_history (batches : list (list UploadedFile)) :
  forall st history,
    cache_from_history C st history ->
    cache_from_history C (run_session C L st batches) (history ++ batches).
Proof.
  induction batches as [|uploads rest IH]; intros st history H; simpl.
  - now rewrite app_nil_r.
  - replace (history ++ uploads :: rest)%list
      with ((history ++ [uploads]) ++ rest)%list
      by (now rewrite <- app_assoc).
    apply IH, main_keeps_history, H.
Qed.

Lemma new_session_history : cache_from_history C new_session [].
Proof.
  intros d H. discriminate.
Qed.

(** Results, once stored, stay for the rest of the session. *)
Lemma run_session_keeps_cache (batches : list (list UploadedFile)) :
  forall st d, cached st = Some d -> cached (run_session C L st batches) = Some d.
Proof.
  induction batches as [|uploads rest IH]; intros st d H; simpl; trivial.
  apply IH. destruct uploads as [|f files].
  - unfold main, cached in *. now destruct st as [[[d'|]|]].
  - now rewrite (main_cached C L st d f files H).
Qed.

(** The archive rendered from stored results, read against the files they
    were computed from. *)
Lemma render_processed_from (d : Processed) (files : list UploadedFile)
      (page : Page) :
  processed_from C d files ->
  render L d = Ok (Some page) ->
  List.length (entries (download_data page)) = List.length files /\
  forall i f,
    nth_error files i = Some f ->
    exists img reported rgb optimized,
      open_upload C f = Ok img /\
      format C img = Some reported /\
      convert C img "RGB" = Ok rgb /\
      save C rgb (lower reported) true = Ok optimized /\
      nth_error (entries (download_data page)) i
      = Some (mkZipEntry (ZipInfo_filename (optimized_filename (name f)))
                         optimized ZIP_DEFLATED).
Proof.
  intros [Hp Hnames] Hr.
  destruct (process_images_nth C files _ _ Hp) as (Hl & _ & Hn).
  destruct (render_Ok L d page Hr) as (_ & _ & He). split.
  - rewrite He, length_map, length_combine, Hnames, length_map. lia.
  - intros i f Hi. destruct (Hn i f Hi) as (buf & s & Hf & Hb & _).
    apply process_image_Ok in Hf. destruct Hf as (img & reported & Ho & Hrep & Hc).
    apply lossless_compression_Ok in Hc.
    destruct Hc as (rgb & baseline & Hrgb & _ & Hopt & _).
    exists img, reported, rgb, buf. repeat (split; [assumption|]).
    rewrite He, nth_error_map, Hnames.
    rewrite (nth_error_combine _ (map name files) i buf (name f)); trivial.
    rewrite nth_error_map, Hi. reflexivity.
Qed.

End SessionFacts.

(** C10 as amended: in every run of a session that renders a page, the
    archive has an entry for each file of the batch that the session
    processed (the uploads of the run itself when nothing was stored
    before).  The bytes of the entry are the optimized encode in the
    lower-cased format that the opened image reports ([png] for PNG, [jpeg]
    for JPEG), whatever the name.  The name of the entry is made from the
    name of the file, terminated at a null character if there is one: when
    [os.path.splitext] finds an extension, the text after the last dot of
    the entry name is that extension, copied unchanged; otherwise the entry
    name ends in a dot and has no extension. *)
Theorem archive_entry_keeps_upload_extension
        (C : Codec) (L : ZipLib) (batches : list (list UploadedFile))
        (uploads : list UploadedFile) (st' : SessionState) (page : Page) :
  main C L (run_session C L new_session batches) uploads
  = (st', Ok (Some page)) ->
  lower "PNG" = "png" /\ lower "JPEG" = "jpeg" /\
  exists files,
    In files (batches ++ [uploads]) /\
    (cached (run_session C L new_session batches) = None -> files = uploads) /\
    List.length (entries (download_data page)) = List.length files /\
    forall i f,
      nth_error files i = Some f ->
      exists img reported rgb optimized,
        open_upload C f = Ok img /\
        format C img = Some reported /\
        convert C img "RGB" = Ok rgb /\
        save C rgb (lower reported) true = Ok optimized /\
        nth_error (entries (download_data page)) i
        = Some (mkZipEntry (ZipInfo_filename (optimized_filename (name f)))
                           optimized ZIP_DEFLATED) /\
        (occurs NUL (name f) = false ->
         ZipInfo_filename (optimized_filename (name f))
         = optimized_filename (name f)) /\
        ((exists base ext,
             name f = base ++ "." ++ ext /\
             occurs "." ext = false /\ occurs "/" ext = false /\
             has_stem base /\
             optimized_filename (name f) = base ++ "_optimized." ++ ext /\
             cut_at_last_dot (optimized_filename (name f))
             = (base ++ "_optimized", ext)) \/
         ((forall base ext,
              name f = base ++ "." ++ ext ->
              occurs "." ext = false -> occurs "/" ext = false ->
              ~ has_stem base) /\
          optimized_filename (name f) = name f ++ "_optimized." /\
          cut_at_last_dot (optimized_filename (name f))
          = (name f ++ "_optimized", ""))).
Proof.
  set (st := run_session C L new_session batches). intros Hm.
  split; [reflexivity|]. split; [reflexivity|].
  assert (Hst : cache_from_history C st batches).
  { apply (run_session_history C L batches new_session []), new_session_history. }
  destruct (main_Ok_render C L st st' uploads page Hm) as (d & Hd & Hr).
  assert (Hfiles : exists files,
             In files (batches ++ [uploads]) /\
             (cached st = None -> files = uploads) /\
             processed_from C d files).
  { destruct (cached st) as [d0|] eqn:Hc.
    - destruct (Hst d0 Hc) as (files & Hin & Hp).
      destruct uploads as [|f uploads].
      + unfold main in Hm. destruct (processed_images st); discriminate.
      + rewrite (main_cached C L st d0 f uploads Hc) in Hm.
        injection Hm as <- _. cbn in Hd. injection Hd as <-.
        exists files. split; [apply in_or_app; auto|]. split; [discriminate|].
        exact Hp.
    - destruct (main_fresh_entries C L st st' uploads page Hc Hm)
        as (imgs & saved & Hp & Hd' & _).
      rewrite Hd in Hd'. injection Hd' as ->.
      exists uploads. split; [apply in_or_app; right; left; reflexivity|].
      split; [reflexivity|]. split; [exact Hp | reflexivity]. }
  destruct Hfiles as (files & Hin & Hfresh & Hp).
  destruct (render_processed_from C L d files page Hp Hr) as [Hlen Hent].
  exists files. split; [exact Hin|]. split; [exact Hfresh|].
  split; [exact Hlen|].
  intros i f Hi.
  destruct (Hent i f Hi) as (img & reported & rgb & optimized & Ho & Hf & Hc & Hs & He).
  exists img, reported, rgb, optimized.
  repeat (split; [assumption|]). split.
  - intros H0. now apply ZipInfo_filename_id, optimized_filename_NUL.
  - destruct (optimized_filename_by_stem (name f))
      as [(base & ext & Hn & Hdot & Hsep & Hstem & Hopt)|[Hno Hopt]].
    + left. exists base, ext. repeat (split; [assumption|]).
      rewrite Hopt. now apply cut_at_last_dot_optimized.
    + right. split; [exact Hno|]. split; [exact Hopt|].
      rewrite Hopt. exact (cut_at_last_dot_optimized (name f) "" eq_refl).
Qed.

Lemma archive_entry_keeps_upload_extension_witness :
  let f := mkUploadedFile "photo.jpg" Toy.png_pixels in
  let g := mkUploadedFile "photo.png" Toy.jpeg_pixels in
  exists st' page,
    main Toy.codec Toy.ziplib (run_session Toy.codec Toy.ziplib new_session [])
         [f; g]
    = (st', Ok (Some page)) /\
    entries (download_data page)
    = [mkZipEntry "photo_optimized.jpg"
                  [Byte.x89; Byte.x01; Byte.x02; Byte.x03; Byte.x00]
                  ZIP_DEFLATED;
       mkZipEntry "photo_optimized.png"
                  [Byte.xff; Byte.x0a; Byte.x0b; Byte.x00]
                  ZIP_DEFLATED] /\
    (exists img rgb,
        open_upload Toy.codec g = Ok img /\
        format Toy.codec img = Some "JPEG" /\
        convert Toy.codec img "RGB" = Ok rgb /\
        save Toy.codec rgb "jpeg" true
        = Ok [Byte.xff; Byte.x0a; Byte.x0b; Byte.x00]) /\
    cut_at_last_dot (optimized_filename (name g)) = ("photo_optimized", "png") /\
    exists files,
      In files ([] ++ [[f; g]]) /\
      List.length (entries (download_data page)) = List.length files.
Proof.
  intros f g.
  eassert (Hm : main Toy.codec Toy.ziplib
                     (run_session Toy.codec Toy.ziplib new_session []) [f; g]
                = (_, Ok (Some _)))
    by (vm_compute; reflexivity).
  destruct (archive_entry_keeps_upload_extension
              Toy.codec Toy.ziplib [] [f; g] _ _ Hm)
    as (_ & _ & files & Hin & _ & Hlen & _).
  do 2 eexists. split; [exact Hm|]. split; [reflexivity|]. split.
  - do 2 eexists. repeat split; reflexivity.
  - split; [reflexivity|]. exists files. split; [exact Hin | exact Hlen].
Defined.

(** C10 as stated fails on a name that is only an extension: the upload
    [.jpeg], which the extension test of line 50 reads as a jpeg, gets the
    entry [.jpeg_optimized.], whose text after the last dot is empty. *)
Lemma archive_entry_of_dot_jpeg_has_no_extension :
  let f := mkUploadedFile ".jpeg" Toy.jpeg_pixels in
  last (split "." (name f)) "" = "jpeg" /\
  (exists st' page,
      main Toy.codec Toy.ziplib new_session [f] = (st', Ok (Some page)) /\
      entries (download_data page)
      = [mkZipEntry ".jpeg_optimized."
                    [Byte.xff; Byte.x0a; Byte.x0b; Byte.x00] ZIP_DEFLATED]) /\
  cut_at_last_dot ".jpeg_optimized." = (".jpeg_optimized", "").
Proof.
  cbv zeta. split; [reflexivity|]. split; [|reflexivity].
  do 2 eexists. split; [vm_compute; reflexivity | reflexivity].
Qed.

(** ** The session cache *)

(** Once a session holds results, a run with uploads renders them and
    leaves them in place, whatever is uploaded. *)
Lemma main_ignores_uploads_when_cached
      (C : Codec) (L : ZipLib) (st : SessionState) (d : Processed)
      (f g : UploadedFile) (files files' : list UploadedFile) :
  cached st = Some d ->
  main C L st (f :: files) = main C L st (g :: files') /\
  cached (fst (main C L st (f :: files))) = Some d.
Proof.
  intros H. rewrite !(main_cached C L st d) by exact H. split; reflexivity.
Qed.

(** A session without results processes the uploads of the run. *)
Lemma main_processes_when_not_cached
      (C : Codec) (L : ZipLib) (st : SessionState)
      (f : UploadedFile) (files : list UploadedFile)
      (imgs : list bytes) (saved : list Z) :
  cached st = None ->
  process_images C (f :: files) = Ok (imgs, saved) ->
  cached (fst (main C L st (f :: files)))
  = Some (mkProcessed imgs saved (map name (f :: files))).
Proof.
  intros Hst Hp. rewrite (main_not_cached C L st f files Hst), Hp. reflexivity.
Qed.

(** C8 on the program: in one session, a run on the upload [a.png] followed
    by a run on the upload [b.jpg] renders for the second batch the page of
    the first, not the page that processing [b.jpg] gives. *)
Theorem second_batch_served_from_first :
  let batch_a := [mkUploadedFile "a.png" Toy.png_pixels] in
  let batch_b := [mkUploadedFile "b.jpg" Toy.jpeg_pixels] in
  let run1 := main Toy.codec Toy.ziplib new_session batch_a in
  let run2 := main Toy.codec Toy.ziplib (fst run1) batch_b in
  let alone := main Toy.codec Toy.ziplib new_session batch_b in
  snd run2 = snd run1 /\
  snd run2 <> snd alone /\
  (exists page, snd run2 = Ok (Some page) /\
                map entry_name (entries (download_data page))
                = ["a_optimized.png"]) /\
  (exists page, snd alone = Ok (Some page) /\
                map entry_name (entries (download_data page))
                = ["b_optimized.jpg"]).
Proof.
  cbv zeta. split; [reflexivity|]. split; [|split].
  - vm_compute. discriminate.
  - eexists. split; [vm_compute; reflexivity | reflexivity].
  - eexists. split; [vm_compute; reflexivity | reflexivity].
Qed.

(** ** Doubles *)

Section BinaryFacts.

Lemma digits2_pos_bounds (p : positive) :
  2 ^ (Zpos (digits2_pos p) - 1) <= Zpos p < 2 ^ Zpos (digits2_pos p).
Proof.
  induction p as [p IH|p IH|]; cbn [digits2_pos].
  - rewrite Pos2Z.inj_succ, (Pos2Z.inj_xI p).
    replace (Z.succ (Zpos (digits2_pos p)) - 1)
      with (Z.succ (Zpos (digits2_pos p) - 1)) by lia.
    rewrite !Z.pow_succ_r by lia.
    revert IH. generalize (2 ^ (Zpos (digits2_pos p) - 1)) (2 ^ Zpos (digits2_pos p)).
    lia.
  - rewrite Pos2Z.inj_succ, (Pos2Z.inj_xO p).
    replace (Z.succ (Zpos (digits2_pos p)) - 1)
      with (Z.succ (Zpos (digits2_pos p) - 1)) by lia.
    rewrite !Z.pow_succ_r by lia.
    revert IH. generalize (2 ^ (Zpos (digits2_pos p) - 1)) (2 ^ Zpos (digits2_pos p)).
    lia.
  - simpl. lia.
Qed.

Lemma digits2_pos_unique (p : positive) (k : Z) :
  2 ^ (k - 1) <= Zpos p < 2 ^ k -> Zpos (digits2_pos p) = k.
Proof.
  intros [Hlo Hhi]. pose proof (digits2_pos_bounds p) as [Hl Hh].
  assert (0 < k).
  { destruct (Z.ltb_spec 0 k); trivial.
    exfalso. destruct (Z.eq_dec k 0) as [->|Hk].
    - simpl in Hhi. lia.
    - rewrite Z.pow_neg_r in Hhi by lia. lia. }
  assert (k - 1 < Zpos (digits2_pos p)).
  { apply (Z.pow_lt_mono_r_iff 2); lia. }
  assert (Zpos (digits2_pos p) - 1 < k).
  { apply (Z.pow_lt_mono_r_iff 2); lia. }
  lia.
Qed.

Lemma digits2_pos_iter_xO (k m : positive) :
  Zpos (digits2_pos (Pos.iter xO m k)) = Zpos (digits2_pos m) + Zpos k /\
  Zpos (Pos.iter xO m k) = Zpos m * 2 ^ Zpos k.
Proof.
  rewrite !Pos2Nat.inj_iter. rewrite <- (positive_nat_Z k).
  induction (Pos.to_nat k) as [|n [IH1 IH2]].
  - simpl. lia.
  - cbn [nat_rect digits2_pos]. rewrite Pos2Z.inj_succ, Nat2Z.inj_succ, IH1.
    rewrite (Pos2Z.inj_xO (nat_rect _ _ _ _)), IH2, Z.pow_succ_r by lia. lia.
Qed.

Lemma iter_pos_nat {A : Type} (f : A -> A) (p : positive) :
  forall x, iter_pos f p x = Nat.iter (Pos.to_nat p) f x.
Proof.
  assert (Hadd : forall a b x, Nat.iter (a + b) f x = Nat.iter a f (Nat.iter b f x)).
  { induction a as [|a IH]; intros b x; simpl; [|rewrite IH]; reflexivity. }
  induction p as [p IH|p IH|]; intros x; cbn [iter_pos].
  - rewrite !IH, Pos2Nat.inj_xI.
    replace (S (2 * Pos.to_nat p)) with (Pos.to_nat p + (Pos.to_nat p + 1))%nat
      by lia.
    rewrite !Hadd. reflexivity.
  - rewrite !IH, Pos2Nat.inj_xO.
    replace (2 * Pos.to_nat p)%nat with (Pos.to_nat p + Pos.to_nat p)%nat
      by lia.
    rewrite Hadd. reflexivity.
  - reflexivity.
Qed.

(** One right shift of the rounding record halves the mantissa, moves its
    low bit to the round bit and accumulates the sticky bit. *)
Lemma shr_1_spec (mrs : shr_record) :
  0 <= shr_m mrs ->
  shr_m (shr_1 mrs) = shr_m mrs / 2 /\
  shr_r (shr_1 mrs) = Z.odd (shr_m mrs) /\
  shr_s (shr_1 mrs) = shr_r mrs || shr_s mrs.
Proof.
  destruct mrs as [m r s]. cbn [shr_m shr_r shr_s]. intros Hm.
  rewrite <- Z.div2_div.
  destruct m as [|[p|p|]|p]; try lia; cbn; auto.
Qed.

Lemma shr_iter_spec (m : Z) (n : nat) :
  0 <= m ->
  shr_m (Nat.iter (S n) shr_1 (Build_shr_record m false false))
  = m / 2 ^ Z.of_nat (S n) /\
  shr_r (Nat.iter (S n) shr_1 (Build_shr_record m false false))
  = Z.odd (m / 2 ^ Z.of_nat n) /\
  shr_s (Nat.iter (S n) shr_1 (Build_shr_record m false false))
  = negb (m mod 2 ^ Z.of_nat n =? 0).
Proof.
  intros Hm. induction n as [|n (IH1 & IH2 & IH3)].
  - change (Nat.iter 1 shr_1 ?x) with (shr_1 x).
    destruct (shr_1_spec (Build_shr_record m false false) Hm)
      as (H1 & H2 & H3). cbn [shr_m shr_r shr_s] in *.
    rewrite H1, H2, H3. change (2 ^ Z.of_nat 1) with 2.
    change (2 ^ Z.of_nat 0) with 1. rewrite Z.div_1_r, Z.mod_1_r. auto.
  - set (prev := Nat.iter (S n) shr_1 _) in *.
    change (Nat.iter (S (S n)) shr_1 ?x) with (shr_1 prev).
    assert (H2n : 0 < 2 ^ Z.of_nat n) by (apply Z.pow_pos_nonneg; lia).
    assert (H2n' : 0 < 2 ^ Z.of_nat (S n)) by (apply Z.pow_pos_nonneg; lia).
    assert (Hp : 0 <= shr_m prev).
    { rewrite IH1. apply Z.div_pos; lia. }
    destruct (shr_1_spec prev Hp) as (H1 & H2 & H3).
    rewrite H1, H2, H3, IH1, IH2, IH3.
    split; [|split].
    + rewrite (Nat2Z.inj_succ (S n)), (Z.pow_succ_r 2 (Z.of_nat (S n))) by lia.
      rewrite (Z.mul_comm 2), Z.div_div by lia. reflexivity.
    + reflexivity.
    + rewrite (Nat2Z.inj_succ n), Z.pow_succ_r by lia.
      rewrite (Z.mul_comm 2), Z.rem_mul_r by lia.
      rewrite Zodd_mod.
      pose proof (Z.mod_pos_bound m (2 ^ Z.of_nat n) H2n).
      pose proof (Z.mod_pos_bound (m / 2 ^ Z.of_nat n) 2 eq_refl).
      destruct (Z.eqb_spec ((m / 2 ^ Z.of_nat n) mod 2) 1);
        destruct (Z.eqb_spec (m mod 2 ^ Z.of_nat n) 0);
        destruct (Z.eqb_spec (m mod 2 ^ Z.of_nat n
                             + 2 ^ Z.of_nat n * ((m / 2 ^ Z.of_nat n) mod 2)) 0);
        simpl; trivial; nia.
Qed.

End BinaryFacts.

Section DoubleFacts.

Lemma normal53_bounds (m : positive) :
  normal53 m -> 2 ^ 52 <= Zpos m < 2 ^ 53.
Proof.
  intros H. pose proof (digits2_pos_bounds m) as Hb. rewrite H in Hb. exact Hb.
Qed.

Lemma fexp_normal (e : Z) :
  -1074 <= e -> fexp Float.prec Float.emax (53 + e) = e.
Proof.
  intros H. unfold fexp, emin, Float.prec, Float.emax. lia.
Qed.

(** Rounding a canonical mantissa changes nothing. *)
Lemma binary_round_aux_canonical (sx : bool) (m : positive) (e : Z) :
  normal53 m -> -1074 <= e <= 971 ->
  binary_round_aux Float.prec Float.emax sx (Zpos m) e loc_Exact
  = S754_finite sx m e.
Proof.
  intros Hm He. unfold binary_round_aux, shr_fexp.
  cbn [Zdigits2 shr_record_of_loc]. rewrite Hm, fexp_normal by lia.
  rewrite Z.sub_diag. cbn [shr shr_m loc_of_shr_record round_nearest_even Zdigits2].
  rewrite Hm, fexp_normal by lia.
  rewrite Z.sub_diag. cbn [shr shr_m].
  unfold Float.emax, Float.prec.
  destruct (Z.leb_spec e (1024 - 53)); [reflexivity | lia].
Qed.

(** Division by [1024.0] lowers the exponent by ten. *)
Lemma div_c1024 (s : bool) (m : positive) (e : Z) :
  normal53 m -> -1063 <= e <= 981 ->
  Float.div (S754_finite s m e) Float.c1024 = S754_finite s m (e - 10).
Proof.
  intros Hm He. pose proof (normal53_bounds m Hm) as Hb.
  unfold Float.div, Float.c1024, SFdiv, SFdiv_core_binary.
  cbn [Zdigits2]. rewrite Hm.
  change (Zpos (digits2_pos 4503599627370496)) with 53.
  replace (53 + e - (53 + -42)) with (53 + (e - 11)) by lia.
  rewrite fexp_normal by lia.
  replace (Z.min (e - 11) (e - -42)) with (e - 11) by lia.
  replace (e - -42 - (e - 11)) with 53 by lia.
  rewrite Z.shiftl_mul_pow2 by lia.
  assert (Hq : Z.div_eucl (Zpos m * 2 ^ 53) 4503599627370496
               = (Zpos m~0, 0)).
  { pose proof (Z_div_mod_full (Zpos m * 2 ^ 53) 4503599627370496) as Hd.
    destruct (Z.div_eucl (Zpos m * 2 ^ 53) 4503599627370496) as [q r].
    destruct Hd as [Heq Hr]; [discriminate|].
    unfold Remainder in Hr. change (2 ^ 53) with 9007199254740992 in *.
    assert (r = 0) by lia. subst r.
    f_equal. lia. }
  rewrite Hq. cbn [xorb]. rewrite xorb_false_r.
  change (new_location 4503599627370496 0) with loc_Exact.
  unfold binary_round_aux, shr_fexp. cbn [Zdigits2 digits2_pos shr_record_of_loc].
  rewrite Hm. change (Zpos (Pos.succ 53)) with 54.
  replace (54 + (e - 11)) with (53 + (e - 10)) by lia.
  rewrite fexp_normal by lia.
  replace (e - 10 - (e - 11)) with 1 by lia.
  cbn [shr iter_pos shr_1 shr_m orb loc_of_shr_record round_nearest_even Zdigits2].
  rewrite Hm. replace (e - 11 + 1) with (e - 10) by lia.
  rewrite fexp_normal by lia. rewrite Z.sub_diag. cbn [shr shr_m].
  unfold Float.emax, Float.prec.
  destruct (Z.leb_spec (e - 10) (1024 - 53)); [reflexivity | lia].
Qed.

(** [abs(x) < 1024.0] reads the exponent. *)
Lemma abs_ltb_c1024 (s : bool) (m : positive) (e : Z) :
  normal53 m ->
  Float.ltb (Float.abs (S754_finite s m e)) Float.c1024 = (e <? -42).
Proof.
  intros Hm. pose proof (normal53_bounds m Hm) as Hb.
  unfold Float.ltb, Float.abs, Float.c1024, SFabs, SFltb, SFcompare.
  destruct (Z.compare_spec e (-42)) as [->|H|H].
  - rewrite Pos.compare_cont_spec. cbn [Pos.switch_Eq].
    destruct (Pos.compare_spec m 4503599627370496) as [H|H|H]; trivial.
    exfalso. apply Pos2Z.pos_lt_pos in H. revert H Hb.
    change (2 ^ 52) with 4503599627370496. generalize (Zpos m). lia.
  - symmetry. apply Z.ltb_lt. exact H.
  - symmetry. apply Z.ltb_ge. lia.
Qed.

End DoubleFacts.

Section ConversionFacts.

Lemma digits2_pos_log2 (m : positive) :
  Zpos (digits2_pos m) = Z.log2 (Zpos m) + 1.
Proof.
  pose proof (digits2_pos_bounds m) as Hb.
  assert (Z.log2 (Zpos m) = Zpos (digits2_pos m) - 1); [|lia].
  apply Z.log2_unique; [lia|].
  replace (Z.succ (Zpos (digits2_pos m) - 1)) with (Zpos (digits2_pos m))
    by lia.
  exact Hb.
Qed.

(** The rounding of the shifted record is the rounding of the quotient. *)
Lemma round_shr_iter (m : positive) (k : nat) :
  round_nearest_even
    (shr_m (Nat.iter (S k) shr_1 (Build_shr_record (Zpos m) false false)))
    (loc_of_shr_record
       (Nat.iter (S k) shr_1 (Build_shr_record (Zpos m) false false)))
  = round_half_even (Zpos m) (2 ^ Z.of_nat (S k)).
Proof.
  set (mrs := Nat.iter (S k) shr_1 _).
  destruct (shr_iter_spec (Zpos m) k) as (H1 & H2 & H3); [lia|].
  fold mrs in H1, H2, H3.
  destruct mrs as [q r s]. cbn [shr_m shr_r shr_s] in *.
  unfold round_half_even. rewrite <- H1.
  assert (H2k : 0 < 2 ^ Z.of_nat k) by (apply Z.pow_pos_nonneg; lia).
  rewrite Nat2Z.inj_succ, Z.pow_succ_r by lia.
  rewrite (Z.mul_comm 2 (2 ^ Z.of_nat k)), Z.rem_mul_r by lia.
  rewrite Zodd_mod in H2.
  pose proof (Z.mod_pos_bound (Zpos m) (2 ^ Z.of_nat k) H2k).
  pose proof (Z.mod_pos_bound (Zpos m / 2 ^ Z.of_nat k) 2 eq_refl).
  revert H2 H3.
  destruct (Z.eqb_spec ((Zpos m / 2 ^ Z.of_nat k) mod 2) 1) as [Hr|Hr];
    destruct (Z.eqb_spec (Zpos m mod 2 ^ Z.of_nat k) 0) as [Hs|Hs];
    intros -> ->; cbn [negb loc_of_shr_record round_nearest_even].
  - rewrite Hr, Hs.
    replace (2 * (0 + 2 ^ Z.of_nat k * 1) ?= 2 ^ Z.of_nat k * 2) with Eq
      by (symmetry; apply Z.compare_eq_iff; lia).
    reflexivity.
  - rewrite Hr.
    replace (2 * (Zpos m mod 2 ^ Z.of_nat k + 2 ^ Z.of_nat k * 1)
             ?= 2 ^ Z.of_nat k * 2) with Gt
      by (symmetry; apply Z.compare_gt_iff; lia).
    reflexivity.
  - assert (Hr0 : (Zpos m / 2 ^ Z.of_nat k) mod 2 = 0) by lia.
    rewrite Hr0, Hs.
    replace (2 * (0 + 2 ^ Z.of_nat k * 0) ?= 2 ^ Z.of_nat k * 2) with Lt
      by (symmetry; apply Z.compare_lt_iff; lia).
    reflexivity.
  - assert (Hr0 : (Zpos m / 2 ^ Z.of_nat k) mod 2 = 0) by lia.
    rewrite Hr0.
    replace (2 * (Zpos m mod 2 ^ Z.of_nat k + 2 ^ Z.of_nat k * 0)
             ?= 2 ^ Z.of_nat k * 2) with Lt
      by (symmetry; apply Z.compare_lt_iff; lia).
    reflexivity.
Qed.

Lemma round_half_even_bounds (a b : Z) :
  0 <= a -> 0 < b ->
  a / b <= round_half_even a b <= a / b + 1 /\
  (a mod b = 0 -> round_half_even a b = a / b).
Proof.
  intros Ha Hb. unfold round_half_even. split.
  - destruct (2 * (a mod b) ?= b); [destruct (Z.even (a / b))| |]; lia.
  - intros ->. now replace (2 * 0 ?= b) with Lt.
Qed.

(** A positive integer of at most 53 bits converts exactly. *)
Lemma binary_round_small (sx : bool) (m : positive) :
  Zpos (digits2_pos m) <= 53 ->
  exists mz,
    binary_round Float.prec Float.emax sx m 0
    = S754_finite sx mz (Zpos (digits2_pos m) - 53) /\
    normal53 mz /\
    Zpos mz = Zpos m * 2 ^ (53 - Zpos (digits2_pos m)).
Proof.
  intros Hd. unfold binary_round.
  assert (Hf : fexp Float.prec Float.emax (Zpos (digits2_pos m) + 0)
               = Zpos (digits2_pos m) - 53).
  { unfold fexp, emin, Float.prec, Float.emax. lia. }
  rewrite Hf. unfold shl_align.
  destruct (Zpos (digits2_pos m) - 53 - 0) as [|k|k] eqn:Hk; [|lia|].
  - assert (Hm : normal53 m) by (unfold normal53; lia).
    rewrite binary_round_aux_canonical by (trivial; lia).
    exists m. replace (Zpos (digits2_pos m) - 53) with 0 by lia.
    replace (53 - Zpos (digits2_pos m)) with 0 by lia.
    split; [reflexivity|]. split; [exact Hm | simpl; lia].
  - destruct (digits2_pos_iter_xO k m) as [Hdig Hval].
    assert (Hm : normal53 (Pos.iter xO m k)) by (unfold normal53; lia).
    rewrite binary_round_aux_canonical by (trivial; lia).
    exists (Pos.iter xO m k). split; [reflexivity|]. split; [exact Hm|].
    rewrite Hval. f_equal. f_equal. lia.
Qed.

End ConversionFacts.

Section LargeConversion.

Lemma quotient_53_bits (m : positive) (p : Z) :
  0 < p -> Zpos (digits2_pos m) = p + 53 ->
  2 ^ 52 <= Zpos m / 2 ^ p < 2 ^ 53.
Proof.
  intros Hp Hd. pose proof (digits2_pos_bounds m) as Hb. rewrite Hd in Hb.
  replace (p + 53 - 1) with (p + 52) in Hb by lia.
  rewrite !Z.pow_add_r in Hb by lia.
  assert (0 < 2 ^ p) by (apply Z.pow_pos_nonneg; lia).
  split.
  - apply Z.div_le_lower_bound; lia.
  - apply Z.div_lt_upper_bound; lia.
Qed.

(** A positive integer of more than 53 bits is rounded to 53 bits; the
    mantissa may carry into a 54th bit, and the exponent may leave the
    range. *)
Lemma binary_round_large (sx : bool) (m : positive) (p : Z) :
  0 < p -> Zpos (digits2_pos m) = p + 53 ->
  binary_round Float.prec Float.emax sx m 0
  = let t := round_half_even (Zpos m) (2 ^ p) in
    if t <? 2 ^ 53 then
      if p <=? 971 then S754_finite sx (Z.to_pos t) p else S754_infinity sx
    else
      if p + 1 <=? 971 then S754_finite sx 4503599627370496 (p + 1)
      else S754_infinity sx.
Proof.
  intros Hp Hd. pose proof (quotient_53_bits m p Hp Hd) as Hq.
  assert (H2p : 0 < 2 ^ p) by (apply Z.pow_pos_nonneg; lia).
  destruct (round_half_even_bounds (Zpos m) (2 ^ p)) as [Ht _]; [lia|lia|].
  unfold binary_round.
  assert (Hf : fexp Float.prec Float.emax (Zpos (digits2_pos m) + 0) = p).
  { unfold fexp, emin, Float.prec, Float.emax. lia. }
  rewrite Hf. unfold shl_align.
  destruct (p - 0) as [|pp|pp] eqn:Hpp; try lia.
  unfold binary_round_aux, shr_fexp. cbn [Zdigits2 shr_record_of_loc].
  rewrite Hf, Hpp. cbn [shr]. rewrite iter_pos_nat.
  destruct (Pos2Nat.is_succ pp) as [k Hk]. rewrite Hk.
  rewrite round_shr_iter.
  assert (Hpk : Z.of_nat (S k) = p) by lia.
  rewrite Hpk. cbv zeta.
  set (t := round_half_even (Zpos m) (2 ^ p)) in *.
  replace (0 + Zpos pp) with p by lia.
  destruct t as [|tp|tp] eqn:Et; try lia.
  cbn [Zdigits2].
  destruct (Z.ltb_spec (Zpos tp) (2 ^ 53)) as [Hlt|Hge].
  - rewrite (digits2_pos_unique tp 53) by (change (53 - 1) with 52; lia).
    rewrite fexp_normal by lia. rewrite Z.sub_diag. cbn [shr shr_m Z.to_pos].
    reflexivity.
  - assert (Htp : tp = 9007199254740992%positive).
    { change (2 ^ 53) with 9007199254740992 in *. lia. }
    subst tp. change (Zpos (digits2_pos 9007199254740992)) with 54.
    replace (54 + p) with (53 + (p + 1)) by lia.
    rewrite fexp_normal by lia.
    replace (p + 1 - p) with 1 by lia.
    cbn [shr iter_pos shr_1 shr_m]. reflexivity.
Qed.

End LargeConversion.

Section OfIntFacts.

Lemma round53_pos (m : positive) :
  round53 (Zpos m)
  = if Zpos (digits2_pos m) - 53 <=? 0 then Zpos m
    else round_half_even (Zpos m) (2 ^ (Zpos (digits2_pos m) - 53))
         * 2 ^ (Zpos (digits2_pos m) - 53).
Proof.
  unfold round53. cbn [Z.abs Z.sgn]. rewrite <- digits2_pos_log2.
  destruct (Zpos (digits2_pos m) - 53 <=? 0); [reflexivity | lia].
Qed.

Lemma round53_opp (n : Z) : round53 (- n) = - round53 n.
Proof.
  unfold round53. rewrite Z.abs_opp, Z.sgn_opp.
  destruct (Z.log2 (Z.abs n) + 1 - 53 <=? 0); lia.
Qed.

Lemma round53_small (n : Z) : Z.abs n < 2 ^ 53 -> round53 n = n.
Proof.
  intros H. unfold round53.
  destruct (Z.leb_spec (Z.log2 (Z.abs n) + 1 - 53) 0) as [_|Hp]; trivial.
  assert (Z.log2 (Z.abs n) < 53); [|lia].
  destruct (Z.eq_dec n 0) as [->|Hn]; [simpl; lia|].
  apply Z.log2_lt_pow2; lia.
Qed.

Lemma round53_pos_nonneg (m : positive) : 0 < round53 (Zpos m).
Proof.
  rewrite round53_pos.
  destruct (Z.leb_spec (Zpos (digits2_pos m) - 53) 0) as [_|Hp]; [lia|].
  set (p := Zpos (digits2_pos m) - 53) in *.
  pose proof (quotient_53_bits m p Hp ltac:(unfold p; lia)) as Hq.
  assert (H2p : 0 < 2 ^ p) by (apply Z.pow_pos_nonneg; lia).
  destruct (round_half_even_bounds (Zpos m) (2 ^ p)) as [Ht _]; [lia|lia|].
  apply Z.mul_pos_pos; lia.
Qed.

(** The conversion of a positive integer, with the sign [sx]: the double
    whose magnitude is the rounded integer, or infinity when that is
    [2^1024] or more. *)
Lemma binary_round_spec (sx : bool) (m : positive) :
  if round53 (Zpos m) <? 2 ^ 1024 then
    exists mz e,
      binary_round Float.prec Float.emax sx m 0 = S754_finite sx mz e /\
      normal53 mz /\ -52 <= e <= 971 /\
      represents mz e (round53 (Zpos m)) 1
  else binary_round Float.prec Float.emax sx m 0 = S754_infinity sx.
Proof.
  rewrite round53_pos.
  destruct (Z.leb_spec (Zpos (digits2_pos m) - 53) 0) as [Hp|Hp].
  - destruct (binary_round_small sx m) as (mz & Hr & Hn & Hv); [lia|].
    pose proof (digits2_pos_bounds m) as Hb.
    assert (Hm : Zpos m < 2 ^ 1024).
    { apply Z.lt_le_trans with (2 ^ Zpos (digits2_pos m)); [lia|].
      apply Z.pow_le_mono_r; lia. }
    apply Z.ltb_lt in Hm. rewrite Hm.
    exists mz, (Zpos (digits2_pos m) - 53).
    split; [exact Hr|]. split; [exact Hn|]. split; [lia|].
    split; [lia|]. rewrite Hv, Z.mul_1_r, <- Z.mul_assoc, <- Z.pow_add_r by lia.
    f_equal. f_equal. lia.
  - set (p := Zpos (digits2_pos m) - 53) in *.
    assert (Hd : Zpos (digits2_pos m) = p + 53) by (unfold p; lia).
    rewrite (binary_round_large sx m p Hp Hd). cbv zeta.
    pose proof (quotient_53_bits m p Hp Hd) as Hq.
    assert (H2p : 0 < 2 ^ p) by (apply Z.pow_pos_nonneg; lia).
    destruct (round_half_even_bounds (Zpos m) (2 ^ p)) as [Ht _]; [lia|lia|].
    set (t := round_half_even (Zpos m) (2 ^ p)) in *.
    assert (E1024 : 2 ^ 1024 = 2 ^ 53 * 2 ^ 971) by reflexivity.
    assert (E972 : 2 ^ 972 = 2 * 2 ^ 971) by reflexivity.
    assert (E970 : 2 ^ 971 = 2 * 2 ^ 970) by reflexivity.
    destruct (Z.ltb_spec t (2 ^ 53)) as [Hlt|Hge];
      [destruct (Z.leb_spec p 971) as [Hle|Hgt]
      |destruct (Z.leb_spec (p + 1) 971) as [Hle|Hgt]].
    + assert (HP : 2 ^ p <= 2 ^ 971) by (apply Z.pow_le_mono_r; lia).
      assert (Hr : t * 2 ^ p < 2 ^ 1024).
      { rewrite E1024. apply Z.lt_le_trans with (2 ^ 53 * 2 ^ p).
        - apply Z.mul_lt_mono_pos_r; lia.
        - apply Z.mul_le_mono_nonneg_l; lia. }
      apply Z.ltb_lt in Hr. rewrite Hr.
      exists (Z.to_pos t), p.
      assert (Hpos : Zpos (Z.to_pos t) = t) by (apply Z2Pos.id; lia).
      split; [reflexivity|]. split.
      { unfold normal53. apply Pos2Z.inj.
        apply digits2_pos_unique. rewrite Hpos. change (53 - 1) with 52. lia. }
      split; [lia|]. split; [lia|].
      rewrite Hpos, Z.mul_1_r, Z.pow_add_r by lia. ring.
    + assert (HP : 2 ^ 972 <= 2 ^ p) by (apply Z.pow_le_mono_r; lia).
      assert (Hr : 2 ^ 1024 <= t * 2 ^ p).
      { rewrite E1024. apply Z.le_trans with (2 ^ 52 * 2 ^ 972).
        - rewrite E972. change (2 ^ 53) with (2 ^ 52 * 2). lia.
        - apply Z.mul_le_mono_nonneg; lia. }
      apply Z.ltb_ge in Hr. rewrite Hr. reflexivity.
    + assert (HP : 2 ^ p <= 2 ^ 970) by (apply Z.pow_le_mono_r; lia).
      assert (Et : t = 2 ^ 53) by lia.
      assert (Hr : t * 2 ^ p < 2 ^ 1024).
      { rewrite E1024, Et, E970. apply Z.mul_lt_mono_pos_l; lia. }
      apply Z.ltb_lt in Hr. rewrite Hr.
      exists 4503599627370496%positive, (p + 1).
      split; [reflexivity|]. split; [reflexivity|].
      split; [lia|]. split; [lia|].
      rewrite Et, Z.mul_1_r.
      replace (p + 1 + 1074) with (1 + (p + 1074)) by lia.
      rewrite (Z.pow_add_r 2 1), (Z.pow_add_r 2 p) by lia.
      change (2 ^ 53) with (4503599627370496 * 2 ^ 1). ring.
    + assert (HP : 2 ^ 971 <= 2 ^ p) by (apply Z.pow_le_mono_r; lia).
      assert (Hr : 2 ^ 1024 <= t * 2 ^ p).
      { rewrite E1024. apply Z.mul_le_mono_nonneg; lia. }
      apply Z.ltb_ge in Hr. rewrite Hr. reflexivity.
Qed.

End OfIntFacts.

Section OverflowFacts.

(** The rounded integer stays below [2^1024] exactly when the integer is
    below the midpoint between the largest double and [2^1024]. *)
Lemma round53_below_overflow (m : positive) :
  round53 (Zpos m) < 2 ^ 1024 <-> Zpos m < 2 ^ 1024 - 2 ^ 970.
Proof.
  rewrite round53_pos.
  pose proof (digits2_pos_bounds m) as Hb.
  assert (E1024 : 2 ^ 1024 = 2 ^ 54 * 2 ^ 970) by reflexivity.
  assert (E1023 : 2 ^ 1023 = 2 ^ 53 * 2 ^ 970) by reflexivity.
  assert (E971 : 2 ^ 971 = 2 * 2 ^ 970) by reflexivity.
  assert (B : 0 < 2 ^ 970) by reflexivity.
  destruct (Z.leb_spec (Zpos (digits2_pos m) - 53) 0) as [Hp|Hp].
  - assert (Hm : Zpos m < 2 ^ 53).
    { apply Z.lt_le_trans with (2 ^ Zpos (digits2_pos m)); [lia|].
      apply Z.pow_le_mono_r; lia. }
    rewrite E1024. change (2 ^ 54) with 18014398509481984.
    change (2 ^ 53) with 9007199254740992 in Hm.
    revert B Hm. generalize (2 ^ 970) (Zpos m). intros; nia.
  - set (p := Zpos (digits2_pos m) - 53) in *.
    assert (Hd : Zpos (digits2_pos m) = p + 53) by (unfold p; lia).
    pose proof (quotient_53_bits m p Hp Hd) as Hq.
    assert (H2p : 0 < 2 ^ p) by (apply Z.pow_pos_nonneg; lia).
    destruct (round_half_even_bounds (Zpos m) (2 ^ p)) as [Ht _]; [lia|lia|].
    rewrite Hd in Hb. replace (p + 53 - 1) with (p + 52) in Hb by lia.
    rewrite !Z.pow_add_r in Hb by lia.
    destruct (Z.lt_trichotomy p 971) as [Hlt|[Heq|Hgt]].
    + assert (HP : 2 ^ p <= 2 ^ 970) by (apply Z.pow_le_mono_r; lia).
      rewrite E1024. change (2 ^ 54) with 18014398509481984.
      change (2 ^ 53) with 9007199254740992 in *.
      change (2 ^ 52) with 4503599627370496 in *.
      revert B HP H2p Hb Ht Hq.
      generalize (round_half_even (Zpos m) (2 ^ p)) (Zpos m / 2 ^ p)
                 (2 ^ 970) (2 ^ p) (Zpos m).
      intros t q b P z. intros. split; intros _; nia.
    + rewrite Heq in *. clear Ht.
      pose proof (Z.div_mod (Zpos m) (2 ^ 971) ltac:(lia)) as Hdm.
      pose proof (Z.mod_pos_bound (Zpos m) (2 ^ 971) ltac:(lia)) as Hrm.
      unfold round_half_even.
      rewrite E1024, E971 in *. change (2 ^ 54) with 18014398509481984.
      change (2 ^ 53) with 9007199254740992 in *.
      change (2 ^ 52) with 4503599627370496 in *.
      destruct (Z.eq_dec (Zpos m / (2 * 2 ^ 970)) 9007199254740991) as [Eq|Nq].
      * rewrite Eq in *. change (Z.even 9007199254740991) with false.
        cbv iota.
        destruct (Z.compare_spec (2 * (Zpos m mod (2 * 2 ^ 970)))
                                 (2 * 2 ^ 970)) as [Hc|Hc|Hc];
          revert B Hdm Hrm Hc;
          generalize (Zpos m mod (2 * 2 ^ 970)) (2 ^ 970) (Zpos m);
          intros r b z; intros; split; intros; nia.
      * assert (Hq' : Zpos m / (2 * 2 ^ 970) <= 9007199254740990) by lia.
        destruct (2 * (Zpos m mod (2 * 2 ^ 970)) ?= 2 * 2 ^ 970);
          [destruct (Z.even (Zpos m / (2 * 2 ^ 970)))| |];
          revert B Hdm Hrm Hq Hq';
          generalize (Zpos m mod (2 * 2 ^ 970)) (Zpos m / (2 * 2 ^ 970))
                     (2 ^ 970) (Zpos m);
          intros r q b z; intros; split; intros _; nia.
    + assert (HP : 2 ^ 972 <= 2 ^ p) by (apply Z.pow_le_mono_r; lia).
      change (2 ^ 972) with (4 * 2 ^ 970) in HP.
      rewrite E1024. change (2 ^ 54) with 18014398509481984.
      change (2 ^ 53) with 9007199254740992 in *.
      change (2 ^ 52) with 4503599627370496 in *.
      revert B HP H2p Hb Ht Hq.
      generalize (round_half_even (Zpos m) (2 ^ p)) (Zpos m / 2 ^ p)
                 (2 ^ 970) (2 ^ p) (Zpos m).
      intros t q b P z. intros. split; intros; nia.
Qed.

(** [float(n)] for [n <> 0]. *)
Lemma of_int_spec (n : Z) :
  n <> 0 ->
  if Z.abs (round53 n) <? 2 ^ 1024 then
    exists m e,
      Float.of_int n = Some (S754_finite (n <? 0) m e) /\
      normal53 m /\ -52 <= e <= 971 /\
      represents m e (Z.abs (round53 n)) 1
  else Float.of_int n = None.
Proof.
  intros Hn. unfold Float.of_int.
  destruct n as [|m|m]; [easy| |]; cbn [binary_normalize Z.ltb Z.compare].
  - pose proof (round53_pos_nonneg m) as Hpos.
    rewrite Z.abs_eq by lia.
    pose proof (binary_round_spec false m) as H.
    destruct (round53 (Zpos m) <? 2 ^ 1024).
    + destruct H as (mz & e & -> & H). exists mz, e. auto.
    + now rewrite H.
  - pose proof (round53_pos_nonneg m) as Hpos.
    change (Zneg m) with (- Zpos m). rewrite round53_opp, Z.abs_opp.
    rewrite Z.abs_eq by lia.
    pose proof (binary_round_spec true m) as H.
    destruct (round53 (Zpos m) <? 2 ^ 1024).
    + destruct H as (mz & e & -> & H). exists mz, e. auto.
    + now rewrite H.
Qed.

End OverflowFacts.

Section FormatFacts.

Lemma compare_mul_r (n m p : Z) : 0 < p -> (n * p ?= m * p) = (n ?= m).
Proof.
  intros Hp. destruct (Z.compare_spec n m) as [H|H|H].
  - apply Z.compare_eq_iff. now subst.
  - apply Z.compare_lt_iff. nia.
  - apply Z.compare_gt_iff. nia.
Qed.

Lemma round_half_even_scale (a b c : Z) :
  0 < b -> 0 < c ->
  round_half_even (a * c) (b * c) = round_half_even a b.
Proof.
  intros Hb Hc. unfold round_half_even.
  rewrite Z.div_mul_cancel_r, Z.mul_mod_distr_r by lia.
  rewrite Z.mul_assoc, compare_mul_r by lia. reflexivity.
Qed.

Lemma round_half_even_cross (x y a b : Z) :
  0 < y -> 0 < b -> x * b = a * y ->
  round_half_even x y = round_half_even a b.
Proof.
  intros Hy Hb H.
  rewrite <- (round_half_even_scale x y b), H by lia.
  rewrite (Z.mul_comm y b). apply round_half_even_scale; lia.
Qed.

Lemma represents_cancel (m : positive) (e a b : Z) :
  represents m e a b -> -1074 <= e ->
  (0 <= e -> a = Zpos m * 2 ^ e * b) /\
  (e < 0 -> Zpos m * b = a * 2 ^ (- e)).
Proof.
  intros [Hb H] He.
  assert (T : 0 < 2 ^ (e + 1074)) by (apply Z.pow_pos_nonneg; lia).
  split; intros He'.
  - rewrite Z.pow_add_r in H by lia.
    assert (0 < 2 ^ 1074) by reflexivity.
    apply (Z.mul_cancel_r _ _ (2 ^ 1074)); [apply Z.pow_nonzero; lia|].
    rewrite <- H. ring.
  - replace 1074 with (- e + (e + 1074)) in H at 2 by lia.
    rewrite (Z.pow_add_r 2 (- e) (e + 1074)) in H by lia.
    apply (Z.mul_cancel_r _ _ (2 ^ (e + 1074))); [apply Z.pow_nonzero; lia|].
    transitivity (Zpos m * 2 ^ (e + 1074) * b); [ring | rewrite H; ring].
Qed.

(** The tenths printed for a double of magnitude [a / b]. *)
Lemma tenths_spec (m : positive) (e a b : Z) :
  represents m e a b -> -1074 <= e ->
  tenths m e = round_half_even (10 * a) b.
Proof.
  intros Hr He. destruct (represents_cancel m e a b Hr He) as [H1 H2].
  destruct Hr as [Hb _]. unfold tenths.
  destruct (Z.leb_spec 0 e) as [Hpos|Hneg].
  - rewrite (H1 Hpos).
    destruct (round_half_even_bounds (10 * (Zpos m * 2 ^ e * b)) b)
      as [_ Hex]; [|lia|].
    { assert (0 < 2 ^ e) by (apply Z.pow_pos_nonneg; lia). nia. }
    replace (10 * (Zpos m * 2 ^ e * b)) with (10 * Zpos m * 2 ^ e * b) in *
      by ring.
    rewrite Hex by (apply Z.mod_mul; lia).
    now rewrite Z.div_mul by lia.
  - apply round_half_even_cross; [apply Z.pow_pos_nonneg; lia | lia |].
    specialize (H2 Hneg). lia.
Qed.

(** The test [abs(x) < 1024.0] on a double of magnitude [a / b]. *)
Lemma abs_ltb_represents (s : bool) (m : positive) (e a b : Z) :
  normal53 m -> represents m e a b -> -1074 <= e ->
  Float.ltb (Float.abs (S754_finite s m e)) Float.c1024 = (a <? 1024 * b).
Proof.
  intros Hm [Hb H] He. rewrite abs_ltb_c1024 by exact Hm.
  pose proof (normal53_bounds m Hm) as Hmb.
  change (2 ^ 52) with 4503599627370496 in Hmb.
  change (2 ^ 53) with 9007199254740992 in Hmb.
  assert (E : 2 ^ 1074 = 8796093022208 * 2 ^ 1031) by reflexivity.
  assert (Y : 0 < 2 ^ 1031) by reflexivity.
  assert (X : 0 < 2 ^ (e + 1074)) by (apply Z.pow_pos_nonneg; lia).
  rewrite E in H.
  destruct (Z.ltb_spec e (-42)) as [Hlt|Hge]; symmetry.
  - apply Z.ltb_lt.
    assert (HX : 2 ^ (e + 1074) <= 2 ^ 1031) by (apply Z.pow_le_mono_r; lia).
    revert Hb H Hmb Y X HX.
    generalize (2 ^ (e + 1074)) (2 ^ 1031) (Zpos m). intros x y z. intros.
    assert (H1 : z * x * b < 9007199254740992 * y * b).
    { apply Z.mul_lt_mono_pos_r; [lia|].
      apply Z.le_lt_trans with (z * y).
      - apply Z.mul_le_mono_nonneg_l; lia.
      - apply Z.mul_lt_mono_pos_r; lia. }
    rewrite H in H1.
    apply (Z.mul_lt_mono_pos_r (8796093022208 * y)); lia.
  - apply Z.ltb_ge.
    assert (HX : 2 * 2 ^ 1031 <= 2 ^ (e + 1074)).
    { change (2 * 2 ^ 1031) with (2 ^ 1032). apply Z.pow_le_mono_r; lia. }
    revert Hb H Hmb Y X HX.
    generalize (2 ^ (e + 1074)) (2 ^ 1031) (Zpos m). intros x y z. intros.
    assert (H1 : 4503599627370496 * (2 * y) * b <= z * x * b).
    { apply Z.mul_le_mono_nonneg_r; [lia|].
      apply Z.mul_le_mono_nonneg; lia. }
    rewrite H in H1.
    apply (Z.mul_le_mono_pos_r _ _ (8796093022208 * y)); lia.
Qed.

Lemma represents_div_1024 (m : positive) (e a b : Z) :
  represents m e a b -> -1064 <= e ->
  represents m (e - 10) a (1024 * b).
Proof.
  intros [Hb H] He. split; [lia|]. rewrite <- H.
  replace (e + 1074) with (e - 10 + 1074 + 10) by lia.
  rewrite (Z.pow_add_r 2 (e - 10 + 1074) 10) by lia.
  change (2 ^ 10) with 1024. ring.
Qed.

Lemma decimal_nonempty (z : Z) : (1 <= String.length (decimal z))%nat.
Proof.
  unfold decimal, NilZero.string_of_uint.
  destruct (N.to_uint (Z.to_N z)); simpl; lia.
Qed.

Lemma pad_left_format_1f (s : bool) (t : Z) :
  pad_left 3 (minus_sign s ++ fixed1 t) = minus_sign s ++ fixed1 t.
Proof.
  unfold pad_left, fixed1.
  pose proof (decimal_nonempty (t / 10)). pose proof (decimal_nonempty (t mod 10)).
  rewrite !length_app. cbn [String.length].
  replace (3 - _)%nat with 0%nat by lia. reflexivity.
Qed.

(** The loop on a double of magnitude [a / b]. *)
Lemma sizeof_fmt_loop_float (suffix : string) (us : list string) :
  forall s m e a b,
    normal53 m -> represents m e a b ->
    -1000 + 10 * Z.of_nat (List.length us) <= e <= 971 ->
    sizeof_fmt_loop us (PyFloat (S754_finite s m e)) suffix
    = Ok (let '(b', u) := pick_unit us a b in
          (minus_sign s ++ fixed1 (round_half_even (10 * a) b'))
          ++ u ++ suffix).
Proof.
  induction us as [|u us IH]; intros s m e a b Hm Hr He;
    cbn [sizeof_fmt_loop pick_unit to_float bind abs_lt_1024 format_1f].
  - rewrite (tenths_spec m e a b Hr) by (cbn [List.length] in He; lia).
    reflexivity.
  - cbn [List.length] in He.
    rewrite (abs_ltb_represents s m e a b Hm Hr) by lia.
    destruct (a <? 1024 * b).
    + rewrite pad_left_format_1f, (tenths_spec m e a b Hr) by lia.
      reflexivity.
    + unfold div_1024. cbn [to_float bind].
      rewrite div_c1024 by (trivial; lia).
      apply IH; [exact Hm | apply represents_div_1024; trivial; lia | lia].
Qed.

End FormatFacts.

Section SizeofFmtFacts.

Lemma round53_abs (n : Z) : Z.abs (round53 n) = round53 (Z.abs n).
Proof.
  destruct n as [|m|m]; trivial.
  - cbn [Z.abs]. pose proof (round53_pos_nonneg m). lia.
  - change (Zneg m) with (- Zpos m). rewrite round53_opp, Z.abs_opp.
    change (Z.abs (- Zpos m)) with (Zpos m).
    pose proof (round53_pos_nonneg m). lia.
Qed.

Lemma round53_at_least_1024 (n : Z) :
  1024 <= Z.abs n -> 1024 <= Z.abs (round53 n).
Proof.
  intros H. rewrite round53_abs.
  destruct (Z.abs n) as [|m|m] eqn:E; try lia.
  rewrite round53_pos.
  destruct (Z.leb_spec (Zpos (digits2_pos m) - 53) 0) as [_|Hp]; [exact H|].
  set (p := Zpos (digits2_pos m) - 53) in *.
  pose proof (quotient_53_bits m p Hp ltac:(unfold p; lia)) as Hq.
  assert (H2p : 0 < 2 ^ p) by (apply Z.pow_pos_nonneg; lia).
  destruct (round_half_even_bounds (Zpos m) (2 ^ p)) as [Ht _]; [lia|lia|].
  change (2 ^ 52) with 4503599627370496 in Hq.
  apply Z.le_trans with (4503599627370496 * 1); [lia|].
  apply Z.mul_le_mono_nonneg; lia.
Qed.

Lemma round53_abs_below_overflow (n : Z) :
  Z.abs (round53 n) < 2 ^ 1024 <-> Z.abs n < 2 ^ 1024 - 2 ^ 970.
Proof.
  rewrite round53_abs. destruct (Z.abs n) as [|m|m] eqn:E; try lia.
  - split; intros _; reflexivity.
  - apply round53_below_overflow.
Qed.

Lemma sizeof_fmt_loop_cons (u : string) (us : list string) (num : pynum)
      (suffix : string) :
  sizeof_fmt_loop (u :: us) num suffix
  = if abs_lt_1024 num then
      x <- to_float num ;; Ok (pad_left 3 (format_1f x) ++ u ++ suffix)
    else
      num' <- div_1024 num ;; sizeof_fmt_loop us num' suffix.
Proof. reflexivity. Qed.

Lemma pick_unit_cons (u : string) (us : list string) (a b : Z) :
  pick_unit (u :: us) a b
  = if a <? 1024 * b then (b, u) else pick_unit us a (1024 * b).
Proof. reflexivity. Qed.

(** In the range of the doubles the program prints the specified string. *)
Lemma sizeof_fmt_format_size (n : Z) :
  Z.abs n < 2 ^ 1024 - 2 ^ 970 ->
  sizeof_fmt n suffix_default = Ok (format_size n).
Proof.
  intros Hn. destruct (Z.eq_dec n 0) as [->|Hn0]; [reflexivity|].
  pose proof (of_int_spec n Hn0) as Hof.
  apply round53_abs_below_overflow in Hn. apply Z.ltb_lt in Hn.
  rewrite Hn in Hof. destruct Hof as (m & e & Hof & Hm & He & Hrep).
  unfold sizeof_fmt, format_size, units, suffix_default.
  rewrite sizeof_fmt_loop_cons, pick_unit_cons. cbn [abs_lt_1024].
  destruct (Z.ltb_spec (Z.abs n) 1024) as [Hlt|Hge].
  - assert (Hs : round53 n = n).
    { apply round53_small. change (2 ^ 53) with 9007199254740992. lia. }
    rewrite Hs in *.
    replace (Z.abs n <? 1024 * 1) with true by (symmetry; apply Z.ltb_lt; lia).
    cbn [to_float]. rewrite Hof. cbn [bind format_1f].
    rewrite pad_left_format_1f, (tenths_spec m e (Z.abs n) 1 Hrep) by lia.
    reflexivity.
  - pose proof (round53_at_least_1024 n Hge) as Hr.
    replace (Z.abs (round53 n) <? 1024 * 1) with false
      by (symmetry; apply Z.ltb_ge; lia).
    unfold div_1024. cbn [to_float]. rewrite Hof. cbn [bind].
    rewrite div_c1024 by (trivial; lia).
    apply sizeof_fmt_loop_float.
    + exact Hm.
    + apply represents_div_1024; trivial; lia.
    + cbn [List.length]. lia.
Qed.

(** Beyond it the conversion to a double raises. *)
Lemma sizeof_fmt_overflow (n : Z) :
  2 ^ 1024 - 2 ^ 970 <= Z.abs n ->
  sizeof_fmt n suffix_default = Err OverflowError.
Proof.
  intros Hn. assert (Hn0 : n <> 0).
  { intros ->. apply Z.leb_le in Hn. discriminate. }
  pose proof (of_int_spec n Hn0) as Hof.
  assert (H : 2 ^ 1024 <= Z.abs (round53 n)).
  { destruct (Z.le_gt_cases (2 ^ 1024) (Z.abs (round53 n))) as [|H]; trivial.
    apply round53_abs_below_overflow in H. lia. }
  apply Z.ltb_ge in H. rewrite H in Hof.
  unfold sizeof_fmt, units. rewrite sizeof_fmt_loop_cons. cbn [abs_lt_1024].
  assert (H1024 : 1024 <= 2 ^ 1024 - 2 ^ 970)
    by (apply Z.leb_le; reflexivity).
  replace (Z.abs n <? 1024) with false by (symmetry; apply Z.ltb_ge; lia).
  unfold div_1024. cbn [to_float]. now rewrite Hof.
Qed.

Lemma decimal_first_digit (z : Z) : starts_with "-" (decimal z) = false.
Proof.
  unfold decimal, NilZero.string_of_uint.
  destruct (N.to_uint (Z.to_N z)); reflexivity.
Qed.

(** The specified string starts with a minus sign exactly for the
    negative numbers. *)
Lemma format_size_sign (n : Z) : starts_with "-" (format_size n) = (n <? 0).
Proof.
  unfold format_size.
  destruct (pick_unit units (Z.abs (round53 n)) 1) as [b u].
  destruct (n <? 0); cbn [minus_sign append]; [reflexivity|].
  unfold fixed1.
  pose proof (decimal_first_digit
                (round_half_even (10 * Z.abs (round53 n)) b / 10)) as H.
  destruct (decimal _) as [|c s]; [reflexivity | exact H].
Qed.

End SizeofFmtFacts.

(** C3 as amended: for every integer [n] that has a nearest double, that
    is with [|n| < 2^1024 - 2^970], [sizeof_fmt] returns the sign of [n],
    the magnitude of the double nearest to [n] divided by 1024 until it is
    below 1024 or the prefixes K, M, G, T, P, E, Z are used up (then the
    prefix is Yi), rounded to one fractional digit with ties to even, the
    prefix and the suffix B; for every other integer it raises
    OverflowError; the nearest double of an integer below [2^53] in
    magnitude is the integer itself; the four sample values are as
    specified. *)
Theorem sizeof_fmt_scales_by_1024 :
  (forall n, Z.abs n < 2 ^ 1024 - 2 ^ 970 ->
             sizeof_fmt n suffix_default = Ok (format_size n)) /\
  (forall n, 2 ^ 1024 - 2 ^ 970 <= Z.abs n ->
             sizeof_fmt n suffix_default = Err OverflowError) /\
  (forall n, Z.abs n < 2 ^ 53 -> round53 n = n) /\
  (forall n, starts_with "-" (format_size n) = (n <? 0)) /\
  sizeof_fmt 0 suffix_default = Ok "0.0B" /\
  sizeof_fmt 1023 suffix_default = Ok "1023.0B" /\
  sizeof_fmt 1024 suffix_default = Ok "1.0KB" /\
  sizeof_fmt (-2048) suffix_default = Ok "-2.0KB".
Proof.
  split; [exact sizeof_fmt_format_size|].
  split; [exact sizeof_fmt_overflow|].
  split; [exact round53_small|].
  split; [exact format_size_sign|].
  repeat split; vm_compute; reflexivity.
Qed.

Lemma sizeof_fmt_scales_by_1024_witness :
  Z.abs (-1536) < 2 ^ 1024 - 2 ^ 970 /\
  sizeof_fmt (-1536) suffix_default = Ok (format_size (-1536)) /\
  format_size (-1536) = "-1.5KB" /\
  2 ^ 1024 - 2 ^ 970 <= Z.abs (2 ^ 1024) /\
  sizeof_fmt (2 ^ 1024) suffix_default = Err OverflowError /\
  Z.abs 1280 < 2 ^ 53 /\ round53 1280 = 1280.
Proof.
  destruct sizeof_fmt_scales_by_1024 as (H1 & H2 & H3 & _).
  split; [reflexivity|]. split; [apply H1; reflexivity|].
  split; [vm_compute; reflexivity|].
  split; [apply Z.leb_le; reflexivity|].
  split; [apply H2; apply Z.leb_le; reflexivity|].
  split; [reflexivity | apply H3; reflexivity].
Defined.

(** C3 as stated fails: [2^1024] is an integer, and for it the program
    raises instead of returning a string; so it does for every integer from
    [2^1024 - 2^970] on. *)
Lemma sizeof_fmt_raises_on_huge_integer :
  sizeof_fmt (2 ^ 1024) suffix_default = Err OverflowError /\
  sizeof_fmt (- (2 ^ 1024 - 2 ^ 970)) suffix_default = Err OverflowError.
Proof.
  split; vm_compute; reflexivity.
Qed.

(** * Further properties *)

(** ** The gallery *)

Section GalleryFacts.

Lemma positions_by_index (num_rows : nat) :
  positions num_rows
  = map (fun k => (k / 4, k mod 4)%nat) (seq 0 (4 * num_rows)).
Proof.
  unfold positions. induction num_rows as [|r IH]; [reflexivity|].
  rewrite (seq_S r 0), flat_map_app, IH. cbn [flat_map Nat.add].
  replace (4 * S r)%nat with (4 * r + 4)%nat by lia.
  rewrite seq_app, map_app. f_equal. cbn [Nat.add seq map app].
  assert (H : forall j, (j < 4)%nat ->
            (((4 * r + j) / 4)%nat, ((4 * r + j) mod 4)%nat) = (r, j)).
  { intros j Hj. f_equal.
    - symmetry. apply (Nat.div_unique _ 4 r j); lia.
    - symmetry. apply (Nat.mod_unique _ 4 r j); lia. }
  pose proof (H 0%nat ltac:(lia)) as H0. rewrite Nat.add_0_r in H0.
  replace (S (S (S (4 * r)))) with (4 * r + 3)%nat by lia.
  replace (S (S (4 * r))) with (4 * r + 2)%nat by lia.
  replace (S (4 * r)) with (4 * r + 1)%nat by lia.
  now rewrite H0, !H by lia.
Qed.

Lemma div_mod_index (k : nat) : (k / 4 * 4 + k mod 4 = k)%nat.
Proof.
  pose proof (Nat.div_mod_eq k 4). lia.
Qed.

(** The loop over the positions [k / 4, k mod 4] for [k] from [start] on. *)
Lemma gallery_loop_seq (filenames : list string) (images : list bytes)
      (saved : list Z) (count : nat) :
  forall start cells,
    gallery_loop filenames images saved
      (map (fun k => (k / 4, k mod 4)%nat) (seq start count)) = Ok cells ->
    List.length cells
    = (Nat.min (start + count) (List.length images) - start)%nat /\
    forall k c,
      nth_error cells k = Some c ->
      gallery_cell_at filenames images saved (start + k) c.
Proof.
  induction count as [|count IH]; intros start cells H.
  - cbn in H. injection H as <-. split; [simpl; lia|].
    intros [|k] c Hk; discriminate.
  - cbn [seq map gallery_loop] in H. inv_bind H. inv_bind H.
    injection H as <-. apply IH in Ha0. destruct Ha0 as [Hlen Hcells].
    unfold gallery_cell in Ha. rewrite div_mod_index in Ha.
    destruct (Nat.ltb_spec start (List.length images)) as [Hlt|Hge].
    + apply bind_Ok_inv in Ha. destruct Ha as (fname & Hf & Ha).
      apply bind_Ok_inv in Ha. destruct Ha as (img & Hi & Ha).
      apply bind_Ok_inv in Ha. destruct Ha as (s & Hs & Ha).
      apply bind_Ok_inv in Ha. destruct Ha as (size & Hz & Ha).
      injection Ha as <-.
      apply index_Ok in Hf, Hi, Hs. split.
      * cbn [List.length]. lia.
      * intros [|k] c Hk.
        -- cbn in Hk. injection Hk as <-. rewrite Nat.add_0_r.
           exists fname, img, s, size. auto.
        -- cbn in Hk. replace (start + S k)%nat with (S start + k)%nat by lia.
           now apply Hcells.
    + injection Ha as <-. split; [lia|].
      intros k c Hk.
      assert (k < List.length a0)%nat by (apply nth_error_Some; congruence).
      lia.
Qed.

Lemma gallery_loop_length (filenames : list string) (images : list bytes)
      (saved : list Z) (cells : list Cell) :
  gallery_loop filenames images saved
    (positions ((List.length images + 3) / 4)%nat) = Ok cells ->
  List.length cells = List.length images.
Proof.
  intros H. rewrite positions_by_index in H.
  apply gallery_loop_seq in H. destruct H as [Hlen _]. rewrite Hlen.
  pose proof (Nat.div_mod_eq (List.length images + 3) 4) as Hd.
  pose proof (Nat.mod_upper_bound (List.length images + 3) 4). lia.
Qed.

Lemma gallery_loop_cells (filenames : list string) (images : list bytes)
      (saved : list Z) (cells : list Cell) :
  gallery_loop filenames images saved
    (positions ((List.length images + 3) / 4)%nat) = Ok cells ->
  forall k c,
    nth_error cells k = Some c -> gallery_cell_at filenames images saved k c.
Proof.
  intros H. rewrite positions_by_index in H.
  apply gallery_loop_seq in H. destruct H as [_ Hcells].
  intros k c Hk. exact (Hcells k c Hk).
Qed.

End GalleryFacts.

(** X1: when the gallery loops finish, they have shown one cell per image,
    in the order of the images, four to a row: the cell at position [k] is
    in column [k mod 4] and shows image [k] with the caption made of the
    stored file name [k] and the formatted number [k]. *)
Theorem gallery_shows_each_image_once
        (filenames : list string) (images : list bytes) (saved : list Z)
        (cells : list Cell) :
  gallery_loop filenames images saved
    (positions ((List.length images + 3) / 4)%nat) = Ok cells ->
  List.length cells = List.length images /\
  forall k c,
    nth_error cells k = Some c -> gallery_cell_at filenames images saved k c.
Proof.
  intros H. rewrite positions_by_index in H.
  apply gallery_loop_seq in H. destruct H as [Hlen Hcells]. split.
  - rewrite Hlen.
    pose proof (Nat.div_mod_eq (List.length images + 3) 4) as Hd.
    pose proof (Nat.mod_upper_bound (List.length images + 3) 4). lia.
  - intros k c Hk. exact (Hcells k c Hk).
Qed.

Lemma gallery_shows_each_image_once_witness :
  let filenames := ["a.png"; "b.png"; "c.png"; "d.png"; "e.png"] in
  let images := [[Byte.x01]; [Byte.x02]; [Byte.x03]; [Byte.x04]; [Byte.x05]] in
  let saved := [0; 1023; 1024; -2048; 1536] in
  exists cells,
    gallery_loop filenames images saved
      (positions ((List.length images + 3) / 4)%nat) = Ok cells /\
    List.length cells = 5%nat /\
    nth_error cells 4
    = Some (mkCell 0 [Byte.x05] "e.png -- Space Saved: 1.5KB") /\
    gallery_cell_at filenames images saved 4
      (mkCell 0 [Byte.x05] "e.png -- Space Saved: 1.5KB").
Proof.
  intros filenames images saved.
  eassert (H : gallery_loop filenames images saved
                 (positions ((List.length images + 3) / 4)%nat) = Ok _)
    by (vm_compute; reflexivity).
  destruct (gallery_shows_each_image_once _ _ _ _ H) as [Hlen Hcells].
  eexists. split; [exact H|]. split; [exact Hlen|].
  split; [reflexivity|]. apply Hcells. reflexivity.
Defined.

(** ** Batches *)

Section BatchComposition.

Variable C : Codec.

Lemma process_images_loop_app (xs ys : list UploadedFile) :
  forall acc1 acc2,
    process_images_loop C (xs ++ ys) acc1 acc2
    = '(imgs, saved) <- process_images_loop C xs acc1 acc2 ;;
      process_images_loop C ys imgs saved.
Proof.
  induction xs as [|x xs IH]; intros acc1 acc2; [reflexivity|].
  cbn [app process_images_loop].
  destruct (process_image C x) as [[buf s]|e]; cbn [bind]; [apply IH | reflexivity].
Qed.

Lemma process_images_loop_accumulates (ys : list UploadedFile)
      (acc1 : list bytes) (acc2 : list Z) :
  process_images_loop C ys acc1 acc2
  = '(imgs, saved) <- process_images C ys ;;
    Ok ((acc1 ++ imgs)%list, (acc2 ++ saved)%list).
Proof.
  destruct (process_images C ys) as [[imgs saved]|e] eqn:H; cbn [bind].
  - apply process_images_Ok in H. destruct H as (rs & Hrs & -> & ->).
    now apply process_images_loop_total.
  - unfold process_images in H.
    apply process_images_loop_Err. now apply process_images_loop_Err in H.
Qed.

Lemma process_image_Err (f : UploadedFile) (e : exn) :
  process_image C f = Err e <->
  open_upload C f = Err e \/
  (exists img, open_upload C f = Ok img /\ format C img = None /\
               e = AttributeError) \/
  (exists img reported,
      open_upload C f = Ok img /\ format C img = Some reported /\
      lossless_compression C img (lower reported) = Err e).
Proof.
  unfold process_image, format_lower.
  destruct (open_upload C f) as [img|e0]; cbn [bind].
  - destruct (format C img) as [reported|] eqn:Hf; cbn [bind]; split.
    + intros H. right. right. exists img, reported. auto.
    + intros [H|[(img' & H & H' & _)|(img' & r & H & H' & H'')]];
        [discriminate | injection H as <-; congruence
        | injection H as <-; congruence].
    + intros H. injection H as <-. right. left. exists img. auto.
    + intros [H|[(img' & H & H' & ->)|(img' & r & H & H' & H'')]];
        [discriminate | reflexivity | injection H as <-; congruence].
  - split.
    + intros H. left. congruence.
    + intros [H|[(img' & H & _)|(img' & r & H & _)]]; try discriminate.
      congruence.
Qed.

Lemma lossless_compression_Err (img : Image C) (img_format : string) (e : exn) :
  lossless_compression C img img_format = Err e <->
  convert C img "RGB" = Err e \/
  exists rgb,
    convert C img "RGB" = Ok rgb /\
    (save C rgb img_format false = Err e \/
     (exists baseline, save C rgb img_format false = Ok baseline) /\
     save C rgb img_format true = Err e).
Proof.
  unfold lossless_compression.
  destruct (convert C img "RGB") as [rgb|e0] eqn:Hc; cbn [bind].
  - destruct (save C rgb img_format false) as [baseline|e1] eqn:Hb; cbn [bind].
    + destruct (save C rgb img_format true) as [optimized|e2] eqn:Ho;
        cbn [bind]; split.
      * discriminate.
      * intros [H|(rgb' & H & [H'|[_ H']])]; congruence.
      * intros H. right. exists rgb. split; [reflexivity|]. right.
        split; [eauto | congruence].
      * intros [H|(rgb' & H & [H'|[_ H']])]; congruence.
    + split.
      * intros H. right. exists rgb. split; [reflexivity|]. left. congruence.
      * intros [H|(rgb' & H & [H'|[[b Hb'] H']])]; congruence.
  - split.
    + intros H. left. congruence.
    + intros [H|(rgb' & H & _)]; congruence.
Qed.

End BatchComposition.

(** X2: a batch is processed file by file with nothing carried from one
    file to the next: the outcome for two batches put one after the other is
    the outcome of the first followed by the outcome of the second, and an
    exception in the first keeps the second from being processed. *)
Theorem process_images_app (C : Codec) (xs ys : list UploadedFile) :
  process_images C (xs ++ ys)
  = '(imgs1, saved1) <- process_images C xs ;;
    '(imgs2, saved2) <- process_images C ys ;;
    Ok ((imgs1 ++ imgs2)%list, (saved1 ++ saved2)%list).
Proof.
  unfold process_images at 1. rewrite process_images_loop_app.
  fold (process_images C xs).
  destruct (process_images C xs) as [[imgs1 saved1]|e]; cbn [bind]; trivial.
  apply process_images_loop_accumulates.
Qed.

(** X3: [process_images] raises exactly when some file cannot be processed;
    the exception is that of the first such file, the files after it play no
    part, and the file fails in one of five ways: it cannot be opened, the
    opened image has no format, it cannot be converted to RGB, the baseline
    encode fails, or the optimized encode fails. *)
Theorem process_images_raises_first_failure
        (C : Codec) (files : list UploadedFile) (e : exn) :
  process_images C files = Err e <->
  exists pre f post,
    files = (pre ++ f :: post)%list /\
    all_processed C pre /\
    (open_upload C f = Err e \/
     exists img,
       open_upload C f = Ok img /\
       ((format C img = None /\ e = AttributeError) \/
        exists reported,
          format C img = Some reported /\
          (convert C img "RGB" = Err e \/
           exists rgb,
             convert C img "RGB" = Ok rgb /\
             (save C rgb (lower reported) false = Err e \/
              (exists baseline,
                  save C rgb (lower reported) false = Ok baseline) /\
              save C rgb (lower reported) true = Err e)))).
Proof.
  unfold process_images. rewrite process_images_loop_Err. split.
  - intros (pre & f & post & rs & -> & Hrs & Hf).
    exists pre, f, post. split; [reflexivity|]. split.
    + clear - Hrs. induction Hrs; constructor; eauto.
    + apply process_image_Err in Hf.
      destruct Hf as [H|[(img & H & Hn & ->)|(img & r & H & Hr & Hl)]]; auto.
      * right. exists img. auto.
      * right. exists img. split; trivial. right. exists r. split; trivial.
        now apply lossless_compression_Err.
  - intros (pre & f & post & -> & Hpre & Hf).
    destruct (all_processed_Forall2 C pre Hpre) as [rs Hrs].
    exists pre, f, post, rs. split; [reflexivity|]. split; [exact Hrs|].
    apply process_image_Err.
    destruct Hf as [H|(img & H & [[Hn ->]|(r & Hr & Hl)])]; auto.
    + right. left. exists img. auto.
    + right. right. exists img, r. split; trivial. split; trivial.
      now apply lossless_compression_Err.
Qed.

Lemma process_images_raises_first_failure_witness :
  let good := mkUploadedFile "a.png" Toy.png_pixels in
  let nofmt := mkUploadedFile "b.png" [Byte.x00; Byte.x07] in
  let bad := mkUploadedFile "c.jpg" Toy.corrupt in
  process_images Toy.codec [good; nofmt; bad] = Err AttributeError /\
  (exists pre f post,
      [good; nofmt; bad] = (pre ++ f :: post)%list /\
      all_processed Toy.codec pre) /\
  process_images Toy.codec [good; bad; nofmt]
  = Err (Toy.UnidentifiedImageError (BytesIO Toy.corrupt)).
Proof.
  intros good nofmt bad.
  assert (H : process_images Toy.codec [good; nofmt; bad] = Err AttributeError)
    by reflexivity.
  split; [exact H|]. split.
  - apply process_images_raises_first_failure in H.
    destruct H as (pre & f & post & Heq & Hpre & _).
    exists pre, f, post. auto.
  - apply process_images_raises_first_failure.
    exists [good], bad, [nofmt]. split; [reflexivity|]. split.
    + constructor; [|constructor]. eexists. reflexivity.
    + left. reflexivity.
Defined.

(** ** Runs of the page *)

Section RunFacts.

Variable C : Codec.
Variable L : ZipLib.

Lemma processed_from_lengths (d : Processed) (files : list UploadedFile) :
  processed_from C d files -> lengths_agree d.
Proof.
  intros [Hp Hn]. destruct (process_images_nth C files _ _ Hp) as (H1 & H2 & _).
  unfold lengths_agree. rewrite Hn, length_map. lia.
Qed.

Lemma sizeof_fmt_Err (s : Z) (e : exn) :
  sizeof_fmt s suffix_default = Err e <->
  e = OverflowError /\ ~ in_double_range s.
Proof.
  unfold in_double_range.
  destruct (Z.lt_ge_cases (Z.abs s) (2 ^ 1024 - 2 ^ 970)) as [H|H].
  - rewrite (sizeof_fmt_format_size s H). split; [discriminate|].
    intros [_ Hn]. contradiction.
  - rewrite (sizeof_fmt_overflow s H). split.
    + intros He. split; [congruence | lia].
    + intros [-> _]. reflexivity.
Qed.

Lemma zip_loop_total (images : list bytes) :
  forall names z i,
    (List.length images <= List.length (skipn i names))%nat ->
    accepts L z (combine (map optimized_filename (skipn i names)) images) ->
    exists z', zip_loop L names z i images = (z', None) /\
               closecheck L z' = None.
Proof.
  induction images as [|b images IH]; intros names z i Hlen Hw;
    cbn [zip_loop].
  - exists z. split; [reflexivity|].
    destruct (map optimized_filename (skipn i names)); exact Hw.
  - cbn [List.length] in Hlen.
    destruct (nth_error names i) as [n|] eqn:Hn.
    + apply index_Ok in Hn as Hi. rewrite Hi. cbn [bind].
      rewrite (skipn_nth_error_cons _ _ _ Hn) in Hlen, Hw.
      cbn [map combine accepts] in Hw. destruct Hw as [Hw Hrest].
      unfold writestr. rewrite Hw. apply IH.
      * cbn [List.length] in Hlen. lia.
      * exact Hrest.
    + apply nth_error_None in Hn. rewrite length_skipn in Hlen. lia.
Qed.

Lemma zip_loop_Err (images : list bytes) :
  forall names z i z' e,
    (List.length images <= List.length (skipn i names))%nat ->
    zip_loop L names z i images = (z', Some e) ->
    exists n data,
      In n names /\ In data images /\
      writecheck L z' (optimized_filename n) data = Some e.
Proof.
  induction images as [|b images IH]; intros names z i z' e Hlen H;
    cbn [zip_loop] in H; [discriminate|].
  cbn [List.length] in Hlen.
  destruct (nth_error names i) as [n|] eqn:Hn.
  - apply index_Ok in Hn as Hi. rewrite Hi in H. cbn [bind] in H.
    unfold writestr in H.
    destruct (writecheck L z (optimized_filename n) b) as [e'|] eqn:Hw.
    + injection H as <- <-. exists n, b.
      split; [eapply nth_error_In, Hn|]. split; [left; reflexivity | exact Hw].
    + apply IH in H.
      * destruct H as (n' & data & Hin & Hd & H).
        exists n', data. split; [exact Hin|]. split; [right; exact Hd|exact H].
      * rewrite (skipn_nth_error_cons _ _ _ Hn) in Hlen.
        cbn [List.length] in Hlen. lia.
  - apply nth_error_None in Hn. rewrite length_skipn in Hlen. lia.
Qed.

Lemma index_in_range {A : Type} (l : list A) (k : nat) :
  (k < List.length l)%nat -> exists a, index l k = Ok a /\ In a l.
Proof.
  intros H. unfold index. destruct (nth_error l k) as [a|] eqn:Hk.
  - exists a. split; [reflexivity|]. eapply nth_error_In, Hk.
  - apply nth_error_None in Hk. lia.
Qed.

Lemma gallery_cell_cases (filenames : list string) (images : list bytes)
      (saved : list Z) (i j : nat) :
  List.length saved = List.length images ->
  List.length filenames = List.length images ->
  gallery_cell filenames images saved i j = Ok None \/
  exists n img s,
    In s saved /\
    gallery_cell filenames images saved i j
    = size <- sizeof_fmt s suffix_default ;;
      Ok (Some (mkCell j img (n ++ " -- Space Saved: " ++ size))).
Proof.
  intros Hs Hf. unfold gallery_cell.
  destruct (Nat.ltb_spec (i * 4 + j) (List.length images)) as [Hlt|Hge];
    [|left; reflexivity].
  destruct (index_in_range filenames (i * 4 + j)) as (n & -> & _); [lia|].
  destruct (index_in_range images (i * 4 + j)) as (img & -> & _); [lia|].
  destruct (index_in_range saved (i * 4 + j)) as (s & -> & Hin); [lia|].
  right. exists n, img, s. split; [exact Hin | reflexivity].
Qed.

Lemma gallery_loop_total (filenames : list string) (images : list bytes)
      (saved : list Z) (ps : list (nat * nat)) :
  List.length saved = List.length images ->
  List.length filenames = List.length images ->
  Forall in_double_range saved ->
  exists cells, gallery_loop filenames images saved ps = Ok cells.
Proof.
  intros Hs Hf Hr. induction ps as [|[i j] ps [cells IH]];
    cbn [gallery_loop]; [eauto|].
  rewrite IH.
  destruct (gallery_cell_cases filenames images saved i j Hs Hf)
    as [->|(n & img & s & Hin & ->)]; cbn [bind]; [eauto|].
  rewrite Forall_forall in Hr.
  rewrite (sizeof_fmt_format_size s (Hr s Hin)). cbn [bind]. eauto.
Qed.

Lemma gallery_loop_Err (filenames : list string) (images : list bytes)
      (saved : list Z) (ps : list (nat * nat)) (e : exn) :
  List.length saved = List.length images ->
  List.length filenames = List.length images ->
  gallery_loop filenames images saved ps = Err e ->
  e = OverflowError /\ exists s, In s saved /\ ~ in_double_range s.
Proof.
  intros Hs Hf. induction ps as [|[i j] ps IH]; cbn [gallery_loop];
    [discriminate|].
  destruct (gallery_cell_cases filenames images saved i j Hs Hf)
    as [->|(n & img & s & Hin & ->)]; cbn [bind].
  - destruct (gallery_loop filenames images saved ps); cbn [bind];
      [discriminate | exact IH].
  - destruct (sizeof_fmt s suffix_default) as [size|e'] eqn:Hz; cbn [bind].
    + destruct (gallery_loop filenames images saved ps); cbn [bind];
        [discriminate | exact IH].
    + intros H. apply sizeof_fmt_Err in Hz. destruct Hz as [-> Hn].
      split; [congruence | eauto].
Qed.

Lemma render_Err (d : Processed) (e : exn) :
  lengths_agree d ->
  render L d = Err e ->
  (exists z n data,
      In n (original_filenames d) /\ In data (compressed_images d) /\
      writecheck L z (optimized_filename n) data = Some e) \/
  (exists z, closecheck L z = Some e) \/
  (e = OverflowError /\
   exists s, In s (space_saved d) /\ ~ in_double_range s).
Proof.
  intros [Hs Hf] H. unfold render in H.
  destruct (zip_loop L (original_filenames d) (mkZipFile ZIP_DEFLATED []) 0
                     (compressed_images d)) as [z raised] eqn:Hz.
  unfold exit_with in H.
  destruct (closecheck L z) as [e1|] eqn:Hc; cbn [bind] in H.
  - right. left. injection H as <-. eauto.
  - destruct raised as [e2|]; cbn [bind] in H.
    + left. injection H as <-. apply zip_loop_Err in Hz.
      * destruct Hz as (n & data & Hz). eauto.
      * cbn [skipn]. lia.
    + right. right.
      destruct (gallery_loop _ _ _ _) as [cells|e'] eqn:Hg; cbn [bind] in H;
        [discriminate|].
      injection H as <-. now apply gallery_loop_Err in Hg.
Qed.

Lemma render_total (d : Processed) :
  lengths_agree d ->
  accepts L (mkZipFile ZIP_DEFLATED [])
          (combine (map optimized_filename (original_filenames d))
                   (compressed_images d)) ->
  Forall in_double_range (space_saved d) ->
  exists page, render L d = Ok (Some page).
Proof.
  intros [Hs Hf] Hw Hr. unfold render.
  destruct (zip_loop_total (compressed_images d) (original_filenames d)
              (mkZipFile ZIP_DEFLATED []) 0) as (z & -> & Hc).
  - cbn [skipn]. lia.
  - exact Hw.
  - unfold exit_with. rewrite Hc. cbn [bind].
    destruct (gallery_loop_total (original_filenames d) (compressed_images d)
                (space_saved d)
                (positions ((List.length (compressed_images d) + 3) / 4)%nat)
                Hs Hf Hr) as [cells ->].
    cbn [bind]. eauto.
Qed.

Lemma main_without_uploads (st : SessionState) :
  cached (fst (main C L st [])) = cached st /\ snd (main C L st []) = Ok None.
Proof.
  unfold main, cached. now destruct st as [[[d|]|]].
Qed.

End RunFacts.

(** ** Sessions of the page *)

Section SessionRuns.

Variable C : Codec.
Variable L : ZipLib.

Lemma reachable_lengths_agree (batches : list (list UploadedFile))
      (d : Processed) :
  cached (run_session C L new_session batches) = Some d -> lengths_agree d.
Proof.
  intros Hd.
  destruct (run_session_history C L batches new_session []
              (new_session_history C) d Hd) as (files & _ & Hp).
  exact (processed_from_lengths C d files Hp).
Qed.

End SessionRuns.

(** X4: the dict that a session holds after any number of runs is the one
    built from the first batch with uploads that [process_images] returned
    for; runs without uploads and batches that raised leave nothing. *)
Theorem session_stores_first_processed_batch (C : Codec) (L : ZipLib)
        (batches : list (list UploadedFile)) :
  cached (run_session C L new_session batches) = first_processed C batches.
Proof.
  assert (Hst : cached new_session = None) by reflexivity.
  revert Hst. generalize new_session as st.
  induction batches as [|uploads rest IH]; intros st Hst;
    cbn [run_session first_processed]; [exact Hst|].
  destruct uploads as [|f files].
  - apply IH. now rewrite (proj1 (main_without_uploads C L st)).
  - rewrite (main_not_cached C L st f files Hst).
    destruct (process_images C (f :: files)) as [[images saved]|e].
    + cbn [fst]. now apply run_session_keeps_cache.
    + apply IH. reflexivity.
Qed.

(** X5: in every session the three lists of the stored dict have the same
    length, so the archive loop and the gallery index them in step. *)
Theorem session_lists_have_one_length (C : Codec) (L : ZipLib)
        (batches : list (list UploadedFile))
        (d : Processed) :
  cached (run_session C L new_session batches) = Some d ->
  List.length (space_saved d) = List.length (compressed_images d) /\
  List.length (original_filenames d) = List.length (compressed_images d).
Proof.
  intros Hd.
  destruct (run_session_history C L batches new_session []
              (new_session_history C) d Hd) as (files & _ & [Hp Hn]).
  destruct (process_images_nth C files _ _ Hp) as (H1 & H2 & _).
  rewrite Hn, length_map. lia.
Qed.

Lemma session_lists_have_one_length_witness :
  let a := mkUploadedFile "a.png" Toy.png_pixels in
  let b := mkUploadedFile "b.jpg" Toy.jpeg_pixels in
  exists d,
    cached (run_session Toy.codec Toy.ziplib new_session [[]; [a; b]; [b]])
    = Some d /\
    original_filenames d = ["a.png"; "b.jpg"] /\
    List.length (space_saved d) = List.length (compressed_images d) /\
    List.length (original_filenames d) = List.length (compressed_images d).
Proof.
  intros a b.
  eassert (H : cached (run_session Toy.codec Toy.ziplib new_session
                                   [[]; [a; b]; [b]]) = Some _)
    by (vm_compute; reflexivity).
  eexists. split; [exact H|]. split; [reflexivity|].
  exact (session_lists_have_one_length _ _ _ _ H).
Defined.

(** X6: the exception that ends a run of a session comes from one of four
    places: [process_images] raised it on the uploads of the run, the
    archive library raised it in [writestr] for a stored name and a stored
    buffer, the archive library raised it when the archive was closed, or a
    stored number has no nearest double and formatting it raised
    OverflowError.  The three list lookups never raise. *)
Theorem session_run_fails_only_by (C : Codec) (L : ZipLib)
        (batches : list (list UploadedFile))
        (uploads : list UploadedFile) (e : exn) :
  snd (main C L (run_session C L new_session batches) uploads) = Err e ->
  process_images C uploads = Err e \/
  exists d,
    cached (fst (main C L (run_session C L new_session batches) uploads))
    = Some d /\
    ((exists z n data,
         In n (original_filenames d) /\ In data (compressed_images d) /\
         writecheck L z (optimized_filename n) data = Some e) \/
     (exists z, closecheck L z = Some e) \/
     (e = OverflowError /\
      exists s, In s (space_saved d) /\ ~ in_double_range s)).
Proof.
  set (st := run_session C L new_session batches).
  assert (Hst : forall d, cached st = Some d -> lengths_agree d)
    by exact (reachable_lengths_agree C L batches).
  clearbody st. destruct uploads as [|f files].
  - rewrite (proj2 (main_without_uploads C L st)). discriminate.
  - destruct (cached st) as [d|] eqn:Hc.
    + rewrite (main_cached C L st d f files Hc). cbn [fst snd]. intros H.
      right. exists d. split; [reflexivity|].
      exact (render_Err L d e (Hst d eq_refl) H).
    + rewrite (main_not_cached C L st f files Hc).
      destruct (process_images C (f :: files)) as [[images saved]|e'] eqn:Hp.
      * cbn [fst snd]. intros H. right.
        destruct (process_images_nth C _ _ _ Hp) as (H1 & H2 & _).
        assert (Hl : lengths_agree
                       (mkProcessed images saved (map name (f :: files)))).
        { unfold lengths_agree. cbn [space_saved compressed_images
                                     original_filenames].
          rewrite length_map. lia. }
        eexists. split; [reflexivity|].
        exact (render_Err L _ e Hl H).
      * cbn [snd]. intros H. left. congruence.
Qed.

Lemma session_run_fails_only_by_witness :
  let a := mkUploadedFile "a.png" Toy.png_pixels in
  let nul := mkUploadedFile (String NUL "b.png") Toy.png_pixels in
  let e := Raise "IndexError" "string index out of range" in
  snd (main Toy.codec Toy.ziplib
            (run_session Toy.codec Toy.ziplib new_session [[]]) [a; nul])
  = Err e /\
  (process_images Toy.codec [a; nul] = Err e \/
   exists d,
     cached (fst (main Toy.codec Toy.ziplib
                       (run_session Toy.codec Toy.ziplib new_session [[]])
                       [a; nul]))
     = Some d /\
     ((exists z n data,
          In n (original_filenames d) /\ In data (compressed_images d) /\
          writecheck Toy.ziplib z (optimized_filename n) data = Some e) \/
      (exists z, closecheck Toy.ziplib z = Some e) \/
      (e = OverflowError /\
       exists s, In s (space_saved d) /\ ~ in_double_range s))).
Proof.
  intros a nul e.
  assert (H : snd (main Toy.codec Toy.ziplib
                        (run_session Toy.codec Toy.ziplib new_session [[]])
                        [a; nul]) = Err e)
    by (vm_compute; reflexivity).
  split; [exact H|].
  exact (session_run_fails_only_by _ _ _ _ _ H).
Defined.

(** X7: a first batch of a session is rendered whenever [process_images]
    returns for it, the archive library accepts the writes of its buffers
    under their entry names, one after the other, and then the close, and
    every number has a nearest double; the page has one entry and one cell
    per upload, and the run stores the buffers, the numbers and the names of
    the uploads. *)
Theorem fresh_batch_is_rendered (C : Codec) (L : ZipLib)
        (st : SessionState)
        (uploads : list UploadedFile) (images : list bytes) (saved : list Z) :
  cached st = None ->
  has_uploads uploads = true ->
  process_images C uploads = Ok (images, saved) ->
  accepts L (mkZipFile ZIP_DEFLATED [])
          (combine (map (fun f => optimized_filename (name f)) uploads)
                   images) ->
  Forall in_double_range saved ->
  exists page,
    main C L st uploads
    = (mkSessionState
         (Some (Some (mkProcessed images saved (map name uploads)))),
       Ok (Some page)) /\
    List.length (entries (download_data page)) = List.length uploads /\
    List.length (gallery page) = List.length uploads.
Proof.
  intros Hst Hu Hp Hw Hr. destruct uploads as [|f files]; [discriminate|].
  rewrite (main_not_cached C L st f files Hst), Hp. cbv zeta.
  destruct (process_images_nth C _ _ _ Hp) as (H1 & H2 & _).
  set (d := mkProcessed images saved (map name (f :: files))).
  assert (Hl : lengths_agree d).
  { unfold lengths_agree, d. cbn [space_saved compressed_images
                                  original_filenames].
    rewrite length_map. lia. }
  destruct (render_total L d Hl) as [page Hpage].
  - cbn [d compressed_images original_filenames]. rewrite map_map. exact Hw.
  - exact Hr.
  - exists page. split; [now rewrite Hpage|].
    destruct (render_Ok L d page Hpage) as (_ & Hle & He).
    split.
    + rewrite He, length_map, length_combine.
      cbn [d compressed_images original_filenames] in *. lia.
    + unfold render in Hpage.
      destruct (exit_with L _) as [z|]; [|discriminate].
      cbn [bind] in Hpage.
      destruct (gallery_loop _ _ _ _) as [cells|] eqn:Hg; [|discriminate].
      cbn [bind] in Hpage. injection Hpage as <-. cbn [gallery].
      apply gallery_loop_length in Hg. cbn [d compressed_images] in Hg. lia.
Qed.

Lemma fresh_batch_is_rendered_witness :
  let a := mkUploadedFile "a.png" Toy.png_pixels in
  let b := mkUploadedFile "b.jpg" Toy.jpeg_pixels in
  exists images saved page,
    process_images Toy.codec [a; b] = Ok (images, saved) /\
    accepts Toy.ziplib (mkZipFile ZIP_DEFLATED [])
            (combine (map (fun f => optimized_filename (name f)) [a; b])
                     images) /\
    main Toy.codec Toy.ziplib new_session [a; b]
    = (mkSessionState
         (Some (Some (mkProcessed images saved (map name [a; b])))),
       Ok (Some page)) /\
    List.length (entries (download_data page)) = 2%nat /\
    List.length (gallery page) = 2%nat.
Proof.
  intros a b.
  eassert (Hp : process_images Toy.codec [a; b] = Ok (_, _))
    by (vm_compute; reflexivity).
  assert (Hw : accepts Toy.ziplib (mkZipFile ZIP_DEFLATED [])
                 (combine (map (fun f => optimized_filename (name f)) [a; b])
                          [[Byte.x89; Byte.x01; Byte.x02; Byte.x03; Byte.x00];
                           [Byte.xff; Byte.x0a; Byte.x0b; Byte.x00]]))
    by (vm_compute; repeat split).
  assert (Hr : Forall in_double_range [2; 1])
    by (repeat constructor; vm_compute; reflexivity).
  destruct (fresh_batch_is_rendered Toy.codec Toy.ziplib new_session [a; b]
              _ _ eq_refl eq_refl Hp Hw Hr) as (page & Hm & He & Hg).
  eexists _, _, page. split; [exact Hp|]. split; [exact Hw|].
  split; [exact Hm|]. split; [exact He | exact Hg].
Defined.

(** X8: once a run with uploads has left a dict in the session, every later
    run with uploads leaves the state as it is and renders what that run
    rendered, whatever is uploaded. *)
Theorem later_runs_repeat_the_page (C : Codec) (L : ZipLib)
        (st st' : SessionState)
        (uploads uploads' : list UploadedFile) (d : Processed)
        (r : result exn (option Page)) :
  has_uploads uploads = true ->
  has_uploads uploads' = true ->
  main C L st uploads = (st', r) ->
  cached st' = Some d ->
  main C L st' uploads' = (st', r).
Proof.
  intros Hu Hu' Hm Hd.
  destruct uploads as [|f files]; [discriminate|].
  destruct uploads' as [|f' files']; [discriminate|].
  rewrite (main_cached C L st' d f' files' Hd).
  destruct (cached st) as [d0|] eqn:Hc.
  - rewrite (main_cached C L st d0 f files Hc) in Hm.
    injection Hm as <- <-. cbn in Hd. injection Hd as ->. reflexivity.
  - rewrite (main_not_cached C L st f files Hc) in Hm.
    destruct (process_images C (f :: files)) as [[images saved]|e].
    + cbv zeta in Hm. injection Hm as <- <-. cbn in Hd.
      injection Hd as <-. reflexivity.
    + injection Hm as <- <-. discriminate.
Qed.

Lemma later_runs_repeat_the_page_witness :
  let a := mkUploadedFile "a.png" Toy.png_pixels in
  let b := mkUploadedFile "b.jpg" Toy.jpeg_pixels in
  exists st' r,
    main Toy.codec Toy.ziplib new_session [a] = (st', r) /\
    main Toy.codec Toy.ziplib st' [b; a] = (st', r).
Proof.
  intros a b.
  eassert (Hm : main Toy.codec Toy.ziplib new_session [a] = (_, _))
    by (vm_compute; reflexivity).
  eexists _, _. split; [exact Hm|].
  eapply (later_runs_repeat_the_page Toy.codec Toy.ziplib new_session _
            [a] [b; a] _ _ eq_refl eq_refl Hm).
  reflexivity.
Defined.


(** ** The names of the archive entries *)

(** X9: for every uploaded name the archive entry is named in one of two
    ways.  When [os.path.splitext] finds an extension, it is the text after
    the last dot, has no slash, and [_optimized] goes in before that dot;
    otherwise [_optimized.] with its dot is appended to the whole name. *)
Theorem optimized_filename_cases (n : string) :
  (splitext n = (n, "") /\ optimized_filename n = n ++ "_optimized.") \/
  exists root e,
    n = root ++ "." ++ e /\ occurs "." e = false /\ occurs "/" e = false /\
    optimized_filename n = root ++ "_optimized." ++ e.
Proof.
  destruct (splitext_cases n) as [H|(root & e & Hn & Hd & Hs & H)].
  - left. split; [exact H|]. unfold optimized_filename. now rewrite H.
  - right. exists root, e. repeat (split; [assumption|]).
    unfold optimized_filename. rewrite H.
    change (slice_from ("." ++ e) 1)
      with (slice_from ("." ++ e) (Z.of_nat (String.length "."))).
    now rewrite (slice_from_suffix "." e).
Qed.

(** ** The formatted sizes *)

Section SizeFormat.

Lemma append_nil_r (s : string) : s ++ "" = s.
Proof.
  induction s as [|c s IH]; [reflexivity|]. cbn [append]. now rewrite IH.
Qed.

Lemma sizeof_fmt_loop_suffix (suffix : string) (us : list string) :
  forall num,
    sizeof_fmt_loop us num suffix
    = s <- sizeof_fmt_loop us num "" ;; Ok (s ++ suffix).
Proof.
  induction us as [|u us IH]; intros num.
  - cbn [sizeof_fmt_loop]. destruct (to_float num) as [x|e]; cbn [bind];
      [|reflexivity].
    now rewrite append_nil_r, append_assoc.
  - rewrite !sizeof_fmt_loop_cons. destruct (abs_lt_1024 num).
    + destruct (to_float num) as [x|e]; cbn [bind]; [|reflexivity].
      now rewrite append_nil_r, !append_assoc.
    + destruct (div_1024 num) as [num'|e]; cbn [bind]; [apply IH|reflexivity].
Qed.

Lemma format_size_opp (n : Z) :
  0 < n -> format_size (- n) = "-" ++ format_size n.
Proof.
  intros Hn. unfold format_size. rewrite round53_opp, Z.abs_opp.
  replace (- n <? 0) with true by (symmetry; apply Z.ltb_lt; lia).
  replace (n <? 0) with false by (symmetry; apply Z.ltb_ge; lia).
  destruct (pick_unit units (Z.abs (round53 n)) 1) as [b u]. reflexivity.
Qed.

Lemma pick_unit_band (us : list string) :
  forall (k : nat) (a b : Z),
    0 < b -> (k < List.length us)%nat ->
    ((0 < k)%nat -> 1024 ^ Z.of_nat k * b <= a) ->
    a < 1024 ^ (Z.of_nat k + 1) * b ->
    pick_unit us a b = (1024 ^ Z.of_nat k * b, nth k us "").
Proof.
  induction us as [|u us IH]; intros k a b Hb Hk Hlo Hhi;
    [cbn in Hk; lia|].
  rewrite pick_unit_cons. destruct k as [|k].
  - change (1024 ^ (Z.of_nat 0 + 1)) with 1024 in Hhi.
    replace (a <? 1024 * b) with true by (symmetry; apply Z.ltb_lt; lia).
    cbn [nth]. f_equal. change (1024 ^ Z.of_nat 0) with 1. lia.
  - rewrite Nat2Z.inj_succ in *.
    rewrite Z.pow_succ_r in Hlo by lia.
    replace (Z.succ (Z.of_nat k) + 1) with (Z.succ (Z.of_nat k + 1)) in Hhi
      by lia.
    rewrite Z.pow_succ_r in Hhi by lia.
    assert (Hp : 1 <= 1024 ^ Z.of_nat k)
      by (pose proof (Z.pow_pos_nonneg 1024 (Z.of_nat k)); lia).
    specialize (Hlo ltac:(lia)).
    assert (H1 : 1024 * b <= 1024 * 1024 ^ Z.of_nat k * b).
    { rewrite <- (Z.mul_assoc 1024). apply Z.mul_le_mono_nonneg_l; [lia|].
      replace b with (1 * b) at 1 by lia.
      apply Z.mul_le_mono_nonneg_r; lia. }
    replace (a <? 1024 * b) with false by (symmetry; apply Z.ltb_ge; lia).
    rewrite (IH k a (1024 * b)).
    + cbn [nth]. rewrite Z.pow_succ_r by lia. f_equal. ring.
    + lia.
    + cbn [List.length] in Hk. lia.
    + intros _. replace (1024 ^ Z.of_nat k * (1024 * b))
        with (1024 * 1024 ^ Z.of_nat k * b) by ring. exact Hlo.
    + replace (1024 ^ (Z.of_nat k + 1) * (1024 * b))
        with (1024 * 1024 ^ (Z.of_nat k + 1) * b) by ring.
      exact Hhi.
Qed.

Lemma pick_unit_exhausted (us : list string) :
  forall (a b : Z),
    0 < b ->
    1024 ^ Z.of_nat (List.length us) * b <= a ->
    pick_unit us a b = (1024 ^ Z.of_nat (List.length us) * b, "Yi").
Proof.
  induction us as [|u us IH]; intros a b Hb Hlo.
  - cbn [pick_unit List.length]. f_equal. change (1024 ^ Z.of_nat 0) with 1.
    lia.
  - rewrite pick_unit_cons. cbn [List.length] in *.
    rewrite Nat2Z.inj_succ in *. rewrite Z.pow_succ_r in * by lia.
    assert (Hp : 1 <= 1024 ^ Z.of_nat (List.length us))
      by (pose proof (Z.pow_pos_nonneg 1024 (Z.of_nat (List.length us)));
          lia).
    assert (H1 : 1024 * b <= 1024 * 1024 ^ Z.of_nat (List.length us) * b).
    { rewrite <- (Z.mul_assoc 1024). apply Z.mul_le_mono_nonneg_l; [lia|].
      replace b with (1 * b) at 1 by lia.
      apply Z.mul_le_mono_nonneg_r; lia. }
    replace (a <? 1024 * b) with false by (symmetry; apply Z.ltb_ge; lia).
    rewrite (IH a (1024 * b)).
    + f_equal. ring.
    + lia.
    + replace (1024 ^ Z.of_nat (List.length us) * (1024 * b))
        with (1024 * 1024 ^ Z.of_nat (List.length us) * b) by ring.
      exact Hlo.
Qed.

Lemma round_half_even_1 (a : Z) : round_half_even a 1 = a.
Proof.
  unfold round_half_even. rewrite Z.mod_1_r, Z.div_1_r. reflexivity.
Qed.

Lemma fixed1_whole (a : Z) : fixed1 (10 * a) = decimal a ++ ".0".
Proof.
  unfold fixed1.
  rewrite (Z.mul_comm 10 a), Z.div_mul, Z.mod_mul by lia.
  reflexivity.
Qed.

End SizeFormat.

(** X10: the suffix only ends the text: [sizeof_fmt(num, suffix)] is
    [sizeof_fmt(num, '')] followed by the suffix, and raises when that
    raises. *)
Theorem sizeof_fmt_suffix_is_appended (num : Z) (suffix : string) :
  sizeof_fmt num suffix = s <- sizeof_fmt num "" ;; Ok (s ++ suffix).
Proof.
  unfold sizeof_fmt. apply sizeof_fmt_loop_suffix.
Qed.

(** X11: the text for a negative number is the minus sign followed by the
    text for its magnitude, and it raises exactly when the magnitude
    does. *)
Theorem sizeof_fmt_of_negative (n : Z) :
  0 < n ->
  sizeof_fmt (- n) suffix_default
  = s <- sizeof_fmt n suffix_default ;; Ok ("-" ++ s).
Proof.
  intros Hn.
  destruct (Z.lt_ge_cases (Z.abs n) (2 ^ 1024 - 2 ^ 970)) as [H|H].
  - rewrite (sizeof_fmt_format_size n H).
    rewrite (sizeof_fmt_format_size (- n)) by (now rewrite Z.abs_opp).
    cbn [bind]. now rewrite format_size_opp.
  - rewrite (sizeof_fmt_overflow n H).
    rewrite (sizeof_fmt_overflow (- n)) by (now rewrite Z.abs_opp).
    reflexivity.
Qed.

Lemma sizeof_fmt_of_negative_witness :
  0 < 1536 /\
  sizeof_fmt 1536 suffix_default = Ok "1.5KB" /\
  sizeof_fmt (- 1536) suffix_default
  = s <- sizeof_fmt 1536 suffix_default ;; Ok ("-" ++ s).
Proof.
  split; [reflexivity|]. split; [vm_compute; reflexivity|].
  apply (sizeof_fmt_of_negative 1536). reflexivity.
Defined.

(** X12: a number below 1024 in magnitude is printed exactly: its sign, its
    decimal digits and [.0B], without a prefix and without padding. *)
Theorem sizeof_fmt_below_1024 (n : Z) :
  Z.abs n < 1024 ->
  sizeof_fmt n suffix_default
  = Ok (minus_sign (n <? 0) ++ decimal (Z.abs n) ++ ".0B").
Proof.
  intros Hn.
  assert (H53 : 1024 < 2 ^ 53) by reflexivity.
  assert (Hmax : 1024 < 2 ^ 1024 - 2 ^ 970) by (vm_compute; reflexivity).
  rewrite sizeof_fmt_format_size by lia. f_equal.
  unfold format_size. rewrite round53_small by lia.
  unfold units. rewrite pick_unit_cons.
  replace (Z.abs n <? 1024 * 1) with true by (symmetry; apply Z.ltb_lt; lia).
  rewrite round_half_even_1, fixed1_whole.
  now rewrite !append_assoc.
Qed.

Lemma sizeof_fmt_below_1024_witness :
  Z.abs (-1023) < 1024 /\
  sizeof_fmt (-1023) suffix_default
  = Ok (minus_sign (-1023 <? 0) ++ decimal (Z.abs (-1023)) ++ ".0B") /\
  minus_sign (-1023 <? 0) ++ decimal (Z.abs (-1023)) ++ ".0B" = "-1023.0B".
Proof.
  split; [reflexivity|].
  split; [apply (sizeof_fmt_below_1024 (-1023)); reflexivity|].
  vm_compute. reflexivity.
Defined.

(** X13: the prefix is chosen by the magnitude of the nearest double [x] of
    the number: for [1024^k <= |x| < 1024^(k+1)] with [k < 8] it is the
    [k]-th of none, K, M, G, T, P, E, Z, and the digits are those of
    [|x| / 1024^k] rounded to one fractional digit, ties to even. *)
Theorem sizeof_fmt_unit_band (n : Z) (k : nat) :
  in_double_range n ->
  (k < 8)%nat ->
  ((0 < k)%nat -> 1024 ^ Z.of_nat k <= Z.abs (round53 n)) ->
  Z.abs (round53 n) < 1024 ^ (Z.of_nat k + 1) ->
  sizeof_fmt n suffix_default
  = Ok (minus_sign (n <? 0)
        ++ fixed1 (round_half_even (10 * Z.abs (round53 n))
                                   (1024 ^ Z.of_nat k))
        ++ nth k units "" ++ "B").
Proof.
  intros Hr Hk Hlo Hhi. rewrite (sizeof_fmt_format_size n Hr). f_equal.
  unfold format_size.
  rewrite (pick_unit_band units k (Z.abs (round53 n)) 1); try lia.
  - rewrite Z.mul_1_r. now rewrite !append_assoc.
  - exact Hk.
Qed.

Lemma sizeof_fmt_unit_band_witness :
  in_double_range 1048575 /\
  (1 < 8)%nat /\
  1024 ^ Z.of_nat 1 <= Z.abs (round53 1048575) /\
  Z.abs (round53 1048575) < 1024 ^ (Z.of_nat 1 + 1) /\
  sizeof_fmt 1048575 suffix_default = Ok "1024.0KB".
Proof.
  split; [vm_compute; reflexivity|]. split; [lia|].
  split; [vm_compute; discriminate|]. split; [vm_compute; reflexivity|].
  rewrite (sizeof_fmt_unit_band 1048575 1).
  - vm_compute. reflexivity.
  - vm_compute. reflexivity.
  - lia.
  - intros _. vm_compute. discriminate.
  - vm_compute. reflexivity.
Defined.

(** X14: when the nearest double [x] of the number is [1024^8] or more in
    magnitude, the eight prefixes are used up: the text ends in [YiB] and
    its digits are those of [|x| / 1024^8]. *)
Theorem sizeof_fmt_beyond_units (n : Z) :
  in_double_range n ->
  1024 ^ 8 <= Z.abs (round53 n) ->
  sizeof_fmt n suffix_default
  = Ok (minus_sign (n <? 0)
        ++ fixed1 (round_half_even (10 * Z.abs (round53 n)) (1024 ^ 8))
        ++ "YiB").
Proof.
  intros Hr Hlo. rewrite (sizeof_fmt_format_size n Hr). f_equal.
  unfold format_size.
  rewrite (pick_unit_exhausted units (Z.abs (round53 n)) 1).
  - change (Z.of_nat (List.length units)) with 8. rewrite Z.mul_1_r.
    now rewrite !append_assoc.
  - lia.
  - change (Z.of_nat (List.length units)) with 8. lia.
Qed.

Lemma sizeof_fmt_beyond_units_witness :
  in_double_range (1024 ^ 8) /\
  1024 ^ 8 <= Z.abs (round53 (1024 ^ 8)) /\
  sizeof_fmt (1024 ^ 8) suffix_default = Ok "1.0YiB" /\
  sizeof_fmt (1024 ^ 7) suffix_default = Ok "1.0ZB".
Proof.
  split; [vm_compute; reflexivity|]. split; [vm_compute; discriminate|].
  split.
  - rewrite (sizeof_fmt_beyond_units (1024 ^ 8)).
    + vm_compute. reflexivity.
    + vm_compute. reflexivity.
    + vm_compute. discriminate.
  - vm_compute. reflexivity.
Defined.

(** ** The page as a whole *)

Section PageShape.

Lemma all_digits_string_of_uint (d : Decimal.uint) :
  all_digits (NilEmpty.string_of_uint d) = true.
Proof.
  induction d; cbn [NilEmpty.string_of_uint all_digits]; trivial.
Qed.

Lemma all_digits_decimal (z : Z) : all_digits (decimal z) = true.
Proof.
  unfold decimal, NilZero.string_of_uint.
  destruct (N.to_uint (Z.to_N z)) eqn:Hd; try reflexivity;
    rewrite <- Hd; apply all_digits_string_of_uint.
Qed.

Lemma decimal_one_digit (r : Z) :
  0 <= r < 10 -> exists c, decimal r = String c "" /\ is_digit c = true.
Proof.
  intros Hr.
  assert (H : r = 0 \/ r = 1 \/ r = 2 \/ r = 3 \/ r = 4 \/ r = 5 \/ r = 6 \/
              r = 7 \/ r = 8 \/ r = 9) by lia.
  repeat (destruct H as [->|H]); try subst r;
    eexists; split; reflexivity.
Qed.

Lemma pick_unit_In (us : list string) :
  forall a b, In (snd (pick_unit us a b)) (us ++ ["Yi"])%list.
Proof.
  induction us as [|u us IH]; intros a b; [left; reflexivity|].
  rewrite pick_unit_cons. destruct (a <? 1024 * b).
  - left. reflexivity.
  - right. apply IH.
Qed.

End PageShape.

(** X15: the text for a number that has a nearest double is the minus sign
    for a negative number, one or more decimal digits, a dot, exactly one
    decimal digit, one of the prefixes none, K, M, G, T, P, E, Z, Yi, and
    B; there is no padding and no exponent. *)
Theorem sizeof_fmt_text_shape (n : Z) :
  in_double_range n ->
  exists whole c u,
    sizeof_fmt n suffix_default
    = Ok (minus_sign (n <? 0) ++ whole ++ "." ++ String c (u ++ "B")) /\
    (1 <= String.length whole)%nat /\
    all_digits whole = true /\
    is_digit c = true /\
    In u (units ++ ["Yi"])%list.
Proof.
  intros Hr. rewrite (sizeof_fmt_format_size n Hr). unfold format_size.
  pose proof (pick_unit_In units (Z.abs (round53 n)) 1) as Hu.
  destruct (pick_unit units (Z.abs (round53 n)) 1) as [b u]. cbn [snd] in Hu.
  set (t := round_half_even (10 * Z.abs (round53 n)) b).
  destruct (decimal_one_digit (t mod 10)) as (c & Hc & Hd);
    [apply Z.mod_pos_bound; lia|].
  exists (decimal (t / 10)), c, u. split.
  - unfold fixed1. rewrite Hc. f_equal. now rewrite !append_assoc.
  - split; [apply decimal_nonempty|].
    split; [apply all_digits_decimal|]. split; [exact Hd | exact Hu].
Qed.

Lemma sizeof_fmt_text_shape_witness :
  in_double_range (-5000000) /\
  sizeof_fmt (-5000000) suffix_default = Ok "-4.8MB" /\
  exists whole c u,
    sizeof_fmt (-5000000) suffix_default
    = Ok (minus_sign (-5000000 <? 0) ++ whole ++ "." ++ String c (u ++ "B")) /\
    (1 <= String.length whole)%nat /\
    all_digits whole = true /\
    is_digit c = true /\
    In u (units ++ ["Yi"])%list.
Proof.
  split; [vm_compute; reflexivity|]. split; [vm_compute; reflexivity|].
  apply (sizeof_fmt_text_shape (-5000000)). vm_compute. reflexivity.
Defined.

(** X16: whenever a run renders a page, the gallery and the archive show
    the same buffers in the same order: cell [k] is in column [k mod 4],
    shows the data of entry [k], and its caption starts with the stored
    name from which the name of entry [k] is made (and terminated at a null
    character by the archive library). *)
Theorem gallery_matches_archive (C : Codec) (L : ZipLib)
        (st st' : SessionState) (uploads : list UploadedFile) (page : Page) :
  main C L st uploads = (st', Ok (Some page)) ->
  List.length (gallery page) = List.length (entries (download_data page)) /\
  forall k c,
    nth_error (gallery page) k = Some c ->
    exists n size,
      nth_error (entries (download_data page)) k
      = Some (mkZipEntry (ZipInfo_filename (optimized_filename n))
                         (cell_image c) ZIP_DEFLATED) /\
      cell_column c = (k mod 4)%nat /\
      cell_caption c = n ++ " -- Space Saved: " ++ size.
Proof.
  intros Hm. destruct (main_Ok_render C L _ _ _ _ Hm) as (d & _ & Hr).
  destruct (render_Ok L d page Hr) as (_ & Hle & He).
  unfold render in Hr.
  destruct (exit_with L _) as [z|]; [|discriminate]. cbn [bind] in Hr.
  destruct (gallery_loop _ _ _ _) as [cells|] eqn:Hg; [|discriminate].
  cbn [bind] in Hr. injection Hr as <-. cbn [gallery download_data] in *.
  split.
  - rewrite He, length_map, length_combine.
    rewrite (gallery_loop_length _ _ _ _ Hg). lia.
  - intros k c Hk.
    destruct (gallery_loop_cells _ _ _ _ Hg k c Hk)
      as (n & img & s & size & Hn & Hi & _ & _ & ->).
    exists n, size. cbn [cell_image cell_column cell_caption].
    split; [|split; reflexivity].
    rewrite He, nth_error_map, (nth_error_combine _ _ _ _ _ Hi Hn).
    reflexivity.
Qed.

Lemma gallery_matches_archive_witness :
  let a := mkUploadedFile "a.png" Toy.png_pixels in
  let b := mkUploadedFile "b.jpg" Toy.jpeg_pixels in
  exists st' page,
    main Toy.codec Toy.ziplib new_session [a; b] = (st', Ok (Some page)) /\
    List.length (gallery page) = 2%nat /\
    nth_error (gallery page) 1
    = Some (mkCell 1 [Byte.xff; Byte.x0a; Byte.x0b; Byte.x00]
                   "b.jpg -- Space Saved: 1.0B") /\
    exists n size,
      nth_error (entries (download_data page)) 1
      = Some (mkZipEntry (ZipInfo_filename (optimized_filename n))
                         [Byte.xff; Byte.x0a; Byte.x0b; Byte.x00]
                         ZIP_DEFLATED) /\
      1%nat = (1 mod 4)%nat /\
      "b.jpg -- Space Saved: 1.0B" = n ++ " -- Space Saved: " ++ size.
Proof.
  intros a b.
  eassert (Hm : main Toy.codec Toy.ziplib new_session [a; b]
                = (_, Ok (Some _))) by (vm_compute; reflexivity).
  destruct (gallery_matches_archive _ _ _ _ _ _ Hm) as [Hlen Hcells].
  eexists _, _. split; [exact Hm|]. split; [reflexivity|].
  split; [reflexivity|].
  exact (Hcells 1%nat _ eq_refl).
Defined.
